(** * Parking lot: spot allocation and ticket lifecycle

    A shallow embedding of [parkingLot.py] and the properties of its
    entry and exit flows.

    Modelling conventions.
    - Python objects that are mutated through several references (the
      [ParkingSpot] instances, reachable both from [ParkingLot._spots] and
      from every [ParkingTicket._spot]) live in a store indexed by
      allocation address; the lot and the tickets hold addresses.
    - [time.time()] is an input of every operation that reads the clock;
      its values are binary64 numbers, and so are the results of the
      arithmetic on them. An amount is a Python number: an [int] or a
      [float]. Facts about rounding are derived from the standard
      library's specification of the binary64 operations.
    - [print] appends a message to an output trace; a call of
      [payment_strategy.pay] is recorded in the same trace.
    - Python's [None] result of a function that returns nothing is the
      constructor [PyNone]. *)

From Stdlib Require Import Sorted Floats.
From stdpp Require Import gmap strings list fin_maps.

Local Open Scope Z_scope.

(** ** Fixed types *)

Inductive VehicleType := BIKE | CAR | TRUCK.

Inductive SpotType := COMPACT | REGULAR | LARGE.

#[global] Instance VehicleType_eq_dec : EqDecision VehicleType.
Proof. solve_decision. Defined.

#[global] Instance SpotType_eq_dec : EqDecision SpotType.
Proof. solve_decision. Defined.

(** ** Numbers *)

(** A Python number: an [int], which is unbounded, or a [float], which is
    an IEEE 754 binary64 number. *)
Inductive number :=
| PyInt (n : Z)
| PyFloat (f : float).

(** ** Console output and observable calls *)

(** One constructor per [print] statement of the source. *)
Inductive message :=
| ParkingFull                    (* print("Parking Full") *)
| TicketGenerated (n : Z)        (* print(f"Ticket generated: {n}") *)
| InvalidTicket                  (* print("Invalid Ticket") *)
| ExitSuccessful                 (* print("Exit successful") *)
| CashReceived (amount : number).     (* print(f"Cash payment received: ₹{amount}") *)

Inductive event :=
| Print (m : message)            (* a line written to the console *)
| PayCall (amount : number).     (* payment_strategy.pay(amount) was invoked *)

(** The value of a call to a function without a [return value] statement. *)
Inductive PyNone := PyNone_.

(** ** Basic entities *)

Module Vehicle.
Record t := { _number : string; _type : VehicleType }.

Definition init (number : string) (vehicle_type : VehicleType) : t :=
  {| _number := number; _type := vehicle_type |}.

Definition get_type (self : t) : VehicleType := _type self.
End Vehicle.

Module ParkingSpot.
Record t := { _id : Z; _type : SpotType; _occupied : bool }.

Definition init (spot_id : Z) (spot_type : SpotType) : t :=
  {| _id := spot_id; _type := spot_type; _occupied := false |}.

Definition is_available (self : t) : bool := negb (_occupied self).

Definition occupy (self : t) : t :=
  {| _id := _id self; _type := _type self; _occupied := true |}.

Definition free (self : t) : t :=
  {| _id := _id self; _type := _type self; _occupied := false |}.

Definition get_type (self : t) : SpotType := _type self.
End ParkingSpot.

(** Address of a [ParkingSpot] object in the store. *)
Abbreviation addr := nat (only parsing).

Module ParkingTicket.
Record t := {
  _ticket_id : Z;
  _vehicle : Vehicle.t;
  _spot : addr;
  _entry_time : float
}.

(** The constructor reads the clock: [now] is the value of [time.time()]. *)
Definition init (now : float) (ticket_id : Z) (vehicle : Vehicle.t) (spot : addr) : t :=
  {| _ticket_id := ticket_id; _vehicle := vehicle; _spot := spot;
     _entry_time := now |}.

Definition get_entry_time (self : t) : float := _entry_time self.
Definition get_spot (self : t) : addr := _spot self.
Definition get_ticket_id (self : t) : Z := _ticket_id self.
End ParkingTicket.

(** ** Strategies *)

(** The pricing rule interface: [calculate_fee self entry_time exit_time]. *)
Record PricingStrategy := { calculate_fee : float -> float -> number }.

Module HourlyPricing.
(** [max(1, hours)]: Python's [max] keeps its first argument unless a later
    one is greater, so this is the int [1] unless [hours > 1]; the
    comparison of a float with the int [1] is the comparison with [1.0],
    and it is false for a NaN. *)
Definition max_1 (hours : float) : number :=
  if (1 <? hours)%float then PyFloat hours else PyInt 1.

(** [n * 50]: the product of two ints, or the float product with [50.0]. *)
Definition times_50 (n : number) : number :=
  match n with
  | PyInt k => PyInt (k * 50)
  | PyFloat f => PyFloat (f * 50)
  end.

Definition calculate_fee (entry_time exit_time : float) : number :=
  let hours := ((exit_time - entry_time) / 3600)%float in
  times_50 (max_1 hours).

Definition new : PricingStrategy := Build_PricingStrategy calculate_fee.
End HourlyPricing.

(** The payment interface: [pay self amount] gives the lines the strategy
    prints and the boolean it returns. *)
Record PaymentStrategy := { pay : number -> list message * bool }.

Module CashPayment.
Definition pay (amount : number) : list message * bool :=
  ([CashReceived amount], true).

Definition new : PaymentStrategy := Build_PaymentStrategy pay.
End CashPayment.

(** ** The parking lot *)

(** A [ParkingLot] instance ([self]) together with the store of the
    [ParkingSpot] objects ([heap]) its fields refer to. *)
Module ParkingLot.
Record t := {
  _spots : list addr;
  _tickets : gmap Z ParkingTicket.t;
  _ticket_counter : Z;
  _pricing_strategy : PricingStrategy
}.

Record State := { heap : list ParkingSpot.t; self : t }.

(** What a method call leaves behind: its value, the state and the
    events it emitted, oldest first. *)
Record Result (A : Type) := { ret : A; state : State; out : list event }.
Arguments ret {A} _.
Arguments state {A} _.
Arguments out {A} _.

Definition init : t :=
  {| _spots := []; _tickets := ∅; _ticket_counter := 1;
     _pricing_strategy := HourlyPricing.new |}.

Definition add_spot (spot : addr) (s : State) : State :=
  {| heap := heap s;
     self := {| _spots := _spots (self s) ++ [spot];
                _tickets := _tickets (self s);
                _ticket_counter := _ticket_counter (self s);
                _pricing_strategy := _pricing_strategy (self s) |} |}.

Definition mapping (vehicle_type : VehicleType) : SpotType :=
  match vehicle_type with
  | BIKE => COMPACT
  | CAR => REGULAR
  | TRUCK => LARGE
  end.

(** The test of the loop body of [_find_spot] on the object at [spot]. *)
Definition free_match (h : list ParkingSpot.t) (want : SpotType) (spot : addr) : bool :=
  match h !! spot with
  | Some o => bool_decide (ParkingSpot.get_type o = want) && ParkingSpot.is_available o
  | None => false
  end.

(** [for spot in spots: if ...: return spot] and [return None] after it. *)
Fixpoint scan (h : list ParkingSpot.t) (want : SpotType) (spots : list addr) : option addr :=
  match spots with
  | [] => None
  | spot :: rest => if free_match h want spot then Some spot else scan h want rest
  end.

Definition _find_spot (s : State) (vehicle_type : VehicleType) : option addr :=
  scan (heap s) (mapping vehicle_type) (_spots (self s)).

Definition park_vehicle (now : float) (vehicle : Vehicle.t) (s : State)
  : Result (option ParkingTicket.t) :=
  match _find_spot s (Vehicle.get_type vehicle) with
  | None => {| ret := None; state := s; out := [Print ParkingFull] |}
  | Some spot =>
      let h := alter ParkingSpot.occupy spot (heap s) in
      let n := _ticket_counter (self s) in
      let ticket := ParkingTicket.init now n vehicle spot in
      {| ret := Some ticket;
         state := {| heap := h;
                     self := {| _spots := _spots (self s);
                                _tickets := <[n := ticket]> (_tickets (self s));
                                _ticket_counter := n + 1;
                                _pricing_strategy := _pricing_strategy (self s) |} |};
         out := [Print (TicketGenerated n)] |}
  end.

Definition exit_vehicle (now : float) (ticket_id : Z) (payment_strategy : PaymentStrategy)
    (s : State) : Result PyNone :=
  match _tickets (self s) !! ticket_id with
  | None => {| ret := PyNone_; state := s; out := [Print InvalidTicket] |}
  | Some ticket =>
      let fee := calculate_fee (_pricing_strategy (self s))
                   (ParkingTicket.get_entry_time ticket) now in
      let '(printed, ok) := pay payment_strategy fee in
      let paid := PayCall fee :: map Print printed in
      if ok then
        {| ret := PyNone_;
           state := {| heap := alter ParkingSpot.free (ParkingTicket.get_spot ticket) (heap s);
                       self := {| _spots := _spots (self s);
                                  _tickets := delete ticket_id (_tickets (self s));
                                  _ticket_counter := _ticket_counter (self s);
                                  _pricing_strategy := _pricing_strategy (self s) |} |};
           out := paid ++ [Print ExitSuccessful] |}
      else {| ret := PyNone_; state := s; out := paid |}
  end.
End ParkingLot.

(** ** The singleton and the gates *)

(** The process: every [ParkingSpot] allocated so far and the class
    attribute [ParkingLot._instance]. *)
Record World := { objects : list ParkingSpot.t; _instance : option ParkingLot.t }.

Definition startup : World := {| objects := []; _instance := None |}.

(** [ParkingSpot(spot_id, spot_type)]: a new object and its address. *)
Definition new_spot (spot_id : Z) (spot_type : SpotType) (w : World) : addr * World :=
  (length (objects w),
   {| objects := objects w ++ [ParkingSpot.init spot_id spot_type];
      _instance := _instance w |}).

(** [ParkingLot.get_instance()]: the instance, made on first use, seen
    together with the spot objects its methods reach. *)
Definition get_instance (w : World) : ParkingLot.State :=
  {| ParkingLot.heap := objects w;
     ParkingLot.self := match _instance w with
                        | Some lot => lot
                        | None => ParkingLot.init
                        end |}.

(** The instance is one object: what a method did to it is what
    [ParkingLot._instance] holds afterwards. *)
Definition commit (s : ParkingLot.State) : World :=
  {| objects := ParkingLot.heap s; _instance := Some (ParkingLot.self s) |}.

Module EntranceGate.
Definition enter (now : float) (vehicle : Vehicle.t) (w : World)
  : option ParkingTicket.t * World * list event :=
  let r := ParkingLot.park_vehicle now vehicle (get_instance w) in
  (ParkingLot.ret r, commit (ParkingLot.state r), ParkingLot.out r).
End EntranceGate.

Module ExitGate.
(** The body is a call whose value is dropped: the method returns [None]. *)
Definition exit (now : float) (ticket_id : Z) (w : World) : PyNone * World * list event :=
  let r := ParkingLot.exit_vehicle now ticket_id CashPayment.new (get_instance w) in
  (PyNone_, commit (ParkingLot.state r), ParkingLot.out r).
End ExitGate.

(** ** Sequences of calls *)

(** A call a client can make on the lot once its spots are registered. *)
Inductive call :=
| Park (now : float) (vehicle : Vehicle.t)
| Exit (now : float) (ticket_id : Z) (payment_strategy : PaymentStrategy).

Definition step (c : call) (s : ParkingLot.State) : ParkingLot.State :=
  match c with
  | Park now vehicle => ParkingLot.state (ParkingLot.park_vehicle now vehicle s)
  | Exit now ticket_id p => ParkingLot.state (ParkingLot.exit_vehicle now ticket_id p s)
  end.

Fixpoint run (cs : list call) (s : ParkingLot.State) : ParkingLot.State :=
  match cs with
  | [] => s
  | c :: rest => run rest (step c s)
  end.

(** The identifiers of the tickets handed out along [cs], oldest first. *)
Fixpoint issued (cs : list call) (s : ParkingLot.State) : list Z :=
  match cs with
  | [] => []
  | c :: rest =>
      match c with
      | Park now vehicle =>
          match ParkingLot.ret (ParkingLot.park_vehicle now vehicle s) with
          | Some ticket => [ParkingTicket.get_ticket_id ticket]
          | None => []
          end
      | Exit _ _ _ => []
      end ++ issued rest (step c s)
  end.

(** The lot as the bootstrap leaves it: one fresh [ParkingSpot] per entry of
    [specs], allocated in order, an instance from [ParkingLot()], and one
    [add_spot] per address of [regs]. *)
Definition initial (specs : list (Z * SpotType)) (regs : list addr) : ParkingLot.State :=
  foldl (fun s a => ParkingLot.add_spot a s)
        {| ParkingLot.heap := (fun p => ParkingSpot.init p.1 p.2) <$> specs;
           ParkingLot.self := ParkingLot.init |}
        regs.

(** The bootstrap of the script: three spots, registered in order. *)
Definition bootstrap : World :=
  let '(a1, w) := new_spot 1 COMPACT startup in
  let w := commit (ParkingLot.add_spot a1 (get_instance w)) in
  let '(a2, w) := new_spot 2 REGULAR w in
  let w := commit (ParkingLot.add_spot a2 (get_instance w)) in
  let '(a3, w) := new_spot 3 LARGE w in
  commit (ParkingLot.add_spot a3 (get_instance w)).

(** ** Sample states *)

(** A lot with one car on its only spot, ticket 1 live. *)
Definition one_car : ParkingLot.State :=
  ParkingLot.state
    (ParkingLot.park_vehicle 0 (Vehicle.init "KA01AB1234" CAR) (initial [(2, REGULAR)] [0%nat])).

(** The ticket of that car. *)
Definition first_ticket : ParkingTicket.t :=
  ParkingTicket.init 0 1 (Vehicle.init "KA01AB1234" CAR) 0%nat.

(** A strategy that takes no money. *)
Definition refusing : PaymentStrategy := Build_PaymentStrategy (fun _ => ([], false)).

(** ** Predicates of the statements *)

(** The object at [a] has class [want] and is not occupied. *)
Definition suitable (h : list ParkingSpot.t) (want : SpotType) (a : addr) : Prop :=
  exists o, h !! a = Some o /\ ParkingSpot._type o = want /\ ParkingSpot._occupied o = false.

(** The live ticket filed under [tid] refers to the spot at [a]. *)
Definition references (s : ParkingLot.State) (tid : Z) (a : addr) : Prop :=
  exists t, ParkingLot._tickets (ParkingLot.self s) !! tid = Some t /\ ParkingTicket._spot t = a.

(** The amount [exit_vehicle] asks for when [ticket] leaves at [now]. *)
Definition fee_due (s : ParkingLot.State) (ticket : ParkingTicket.t) (now : float) : number :=
  calculate_fee (ParkingLot._pricing_strategy (ParkingLot.self s))
                (ParkingTicket.get_entry_time ticket) now.

(** The three outcomes of an exit, by the path the call takes. *)
Inductive Outcome := Success | UnknownTicket | PaymentDeclined.

Definition exit_outcome (now : float) (ticket_id : Z) (p : PaymentStrategy)
    (s : ParkingLot.State) : Outcome :=
  match ParkingLot._tickets (ParkingLot.self s) !! ticket_id with
  | None => UnknownTicket
  | Some ticket => if (pay p (fee_due s ticket now)).2 then Success else PaymentDeclined
  end.

(** What a caller can read off the effects of [exit_vehicle ticket_id]: the
    first event and whether the ticket is still in the ledger. *)
Definition observe (ticket_id : Z) (r : ParkingLot.Result PyNone) : option Outcome :=
  match ParkingLot.out r with
  | Print InvalidTicket :: _ => Some UnknownTicket
  | PayCall _ :: _ =>
      match ParkingLot._tickets (ParkingLot.self (ParkingLot.state r)) !! ticket_id with
      | Some _ => Some PaymentDeclined
      | None => Some Success
      end
  | _ => None
  end.

(** The invariant of the lot: tickets are filed below the counter and refer
    to occupied spots, distinct tickets refer to distinct spots, and every
    occupied spot has a ticket. *)
Record consistent (s : ParkingLot.State) : Prop := {
  tickets_below : forall tid t,
    ParkingLot._tickets (ParkingLot.self s) !! tid = Some t ->
    tid < ParkingLot._ticket_counter (ParkingLot.self s);
  tickets_occupy : forall tid t,
    ParkingLot._tickets (ParkingLot.self s) !! tid = Some t ->
    exists o, ParkingLot.heap s !! ParkingTicket._spot t = Some o /\
              ParkingSpot._occupied o = true;
  tickets_apart : forall i j a, references s i a -> references s j a -> i = j;
  occupied_ticketed : forall a o,
    ParkingLot.heap s !! a = Some o -> ParkingSpot._occupied o = true ->
    exists tid, references s tid a
}.

(** ** The constructor guard, registration at run time and the script *)

(** [ParkingLot()] called directly: [__init__] raises when the class
    already holds an instance; the object it builds otherwise is not
    stored in [ParkingLot._instance]. *)
Definition construct (w : World) : string + ParkingLot.t :=
  match _instance w with
  | Some _ => inl "Use get_instance()"
  | None => inr ParkingLot.init
  end.

(** [ParkingLot.get_instance()], statement by statement: the value it
    returns and the process afterwards, or the exception of the
    constructor it calls. *)
Definition get_instance_call (w : World) : string + (ParkingLot.t * World) :=
  match _instance w with
  | Some lot => inr (lot, w)
  | None =>
      match construct w with
      | inl e => inl e
      | inr lot => inr (lot, {| objects := objects w; _instance := Some lot |})
      end
  end.

(** [parking_lot.add_spot(ParkingSpot(spot_id, spot_type))]: a new object,
    appended to the registration list. *)
Definition register (spot_id : Z) (spot_type : SpotType) (s : ParkingLot.State)
  : ParkingLot.State :=
  ParkingLot.add_spot (length (ParkingLot.heap s))
    {| ParkingLot.heap := ParkingLot.heap s ++ [ParkingSpot.init spot_id spot_type];
       ParkingLot.self := ParkingLot.self s |}.

(** What can happen to a lot that also grows while it is in use. *)
Inductive action :=
| Serve (c : call)
| Register (spot_id : Z) (spot_type : SpotType).

Definition act (x : action) (s : ParkingLot.State) : ParkingLot.State :=
  match x with
  | Serve c => step c s
  | Register spot_id spot_type => register spot_id spot_type s
  end.

Fixpoint perform (xs : list action) (s : ParkingLot.State) : ParkingLot.State :=
  match xs with
  | [] => s
  | x :: rest => perform rest (act x s)
  end.

(** A new lot with no spot allocated yet. *)
Definition empty_lot : ParkingLot.State :=
  {| ParkingLot.heap := []; ParkingLot.self := ParkingLot.init |}.

(** The script under [if __name__ == "__main__"], with the two clock
    values it reads: the process at its end and what it printed. *)
Definition main (t_enter t_exit : float) : World * list event :=
  let vehicle := Vehicle.init "KA01AB1234" CAR in
  let '(ticket, w, printed) := EntranceGate.enter t_enter vehicle bootstrap in
  match ticket with
  | Some ticket =>
      let '(_, w, printed') :=
        ExitGate.exit t_exit (ParkingTicket.get_ticket_id ticket) w in
      (w, printed ++ printed')
  | None => (w, printed)
  end.

(** ** Further predicates *)

(** How many spot objects have their occupancy flag set. *)
Definition occupied_count (h : list ParkingSpot.t) : nat :=
  length (filter (fun o => ParkingSpot._occupied o = true) h).

(** Every live ticket is filed under its own identifier, on a registered
    spot, of the class the mapping gives its vehicle. *)
Record well_filed (s : ParkingLot.State) : Prop := {
  filed_under_id : forall tid t,
    ParkingLot._tickets (ParkingLot.self s) !! tid = Some t ->
    ParkingTicket._ticket_id t = tid;
  filed_registered : forall tid t,
    ParkingLot._tickets (ParkingLot.self s) !! tid = Some t ->
    ParkingTicket._spot t ∈ ParkingLot._spots (ParkingLot.self s);
  filed_class : forall tid t,
    ParkingLot._tickets (ParkingLot.self s) !! tid = Some t ->
    exists o, ParkingLot.heap s !! ParkingTicket._spot t = Some o /\
              ParkingSpot._type o =
                ParkingLot.mapping (Vehicle._type (ParkingTicket._vehicle t))
}.

(** The identifier and the class of a spot object: what no method changes. *)
Definition identity (o : ParkingSpot.t) : Z * SpotType :=
  (ParkingSpot._id o, ParkingSpot._type o).

(** ** The binary64 format *)

(** The specification of the format, [SpecFloat] of the standard library,
    gives every float its sign, mantissa and exponent. *)

(** The number [1.0] in the format. *)
Definition one_sf : spec_float := S754_finite false 4503599627370496 (-52).

(** The number [50.0] in the format. *)
Definition fifty_sf : spec_float := S754_finite false 7036874417766400 (-47).

(** The last step of a rounding to the format: the sign-free result for a
    mantissa that has been shifted into place. *)
Definition finish (mrs : shr_record) (e : Z) : spec_float :=
  match shr_m mrs with
  | Z0 => S754_zero false
  | Zpos m => if Z.leb e (emax - prec) then S754_finite false m e else S754_infinity false
  | Zneg _ => S754_nan
  end.

(** A Python number is not below 50. *)
Definition at_least_50 (n : number) : Prop :=
  match n with
  | PyInt k => 50 <= k
  | PyFloat f => (50 <=? f)%float = true
  end.

(** * Properties *)

Import ParkingLot.

(** ** Finding a spot *)

Lemma free_match_suitable h want a : free_match h want a = true <-> suitable h want a.
Proof.
  unfold free_match, suitable, ParkingSpot.is_available, ParkingSpot.get_type.
  destruct (h !! a) as [o|] eqn:E.
  - rewrite andb_true_iff, bool_decide_eq_true, negb_true_iff. split.
    + intros [? ?]. eauto.
    + intros (o' & Ho & ? & ?). injection Ho as <-. auto.
  - split; [discriminate | intros (o & Ho & _); discriminate].
Qed.

Lemma scan_some h want spots a :
  scan h want spots = Some a ->
  exists i, spots !! i = Some a /\ suitable h want a /\
            forall j b, (j < i)%nat -> spots !! j = Some b -> ~ suitable h want b.
Proof.
  induction spots as [|b rest IH]; simpl; [discriminate|].
  destruct (free_match h want b) eqn:E.
  - intros [= ->]. exists 0%nat. split; [reflexivity|]. split.
    + by apply free_match_suitable.
    + intros j c Hj. lia.
  - intros H. destruct (IH H) as (i & Hi & Hs & Hfirst).
    exists (S i). split; [exact Hi|]. split; [exact Hs|].
    intros [|j] c Hj Hc.
    + injection Hc as <-. rewrite <- free_match_suitable, E. discriminate.
    + apply (Hfirst j c); [lia | exact Hc].
Qed.

Lemma scan_none h want spots :
  scan h want spots = None <-> forall a, a ∈ spots -> ~ suitable h want a.
Proof.
  induction spots as [|b rest IH]; simpl.
  - split; [|reflexivity]. intros _ a Ha. by apply not_elem_of_nil in Ha.
  - destruct (free_match h want b) eqn:E.
    + split; [discriminate|]. intros H. exfalso.
      apply (H b); [left | by apply free_match_suitable].
    + rewrite IH. split.
      * intros H a Ha. apply elem_of_cons in Ha as [->|Ha]; [|by apply H].
        rewrite <- free_match_suitable, E. discriminate.
      * intros H a Ha. apply H. by right.
Qed.

(** C2. [_find_spot] returns the first address, in registration order,
    of a spot whose class is the one the fixed mapping (Bike to Compact,
    Car to Regular, Truck to Large) gives the vehicle class and whose
    occupancy flag is false; the spot it returns never has another class;
    and it returns [None] exactly when no registered spot qualifies. *)
Theorem find_spot_first_free_of_class (s : State) (vehicle_type : VehicleType) :
  (mapping BIKE = COMPACT /\ mapping CAR = REGULAR /\ mapping TRUCK = LARGE) /\
  (forall a, _find_spot s vehicle_type = Some a ->
     exists i o,
       _spots (self s) !! i = Some a /\
       heap s !! a = Some o /\
       ParkingSpot.get_type o = mapping vehicle_type /\
       ParkingSpot._occupied o = false /\
       forall j b, (j < i)%nat -> _spots (self s) !! j = Some b ->
                   ~ suitable (heap s) (mapping vehicle_type) b) /\
  (_find_spot s vehicle_type = None <->
     forall a, a ∈ _spots (self s) -> ~ suitable (heap s) (mapping vehicle_type) a).
Proof.
  split; [auto|]. split.
  - intros a Ha. apply scan_some in Ha as (i & Hi & (o & Ho & Hty & Hocc) & Hfirst).
    exists i, o. auto.
  - apply scan_none.
Qed.

Lemma find_spot_first_free_of_class_witness :
  _find_spot one_car CAR = None /\
  forall a, a ∈ _spots (self one_car) -> ~ suitable (heap one_car) REGULAR a.
Proof.
  split; [reflexivity|].
  apply (find_spot_first_free_of_class one_car CAR). reflexivity.
Defined.

(** ** Rounding in the binary64 format *)

Lemma digits2_pos_bounds (m : positive) :
  2 ^ (Z.pos (digits2_pos m) - 1) <= Z.pos m < 2 ^ Z.pos (digits2_pos m).
Proof.
  induction m as [m IH | m IH |]; simpl digits2_pos.
  - rewrite Pos2Z.inj_succ. change (Z.pos m~1) with (2 * Z.pos m + 1).
    replace (Z.succ (Z.pos (digits2_pos m)) - 1) with (Z.succ (Z.pos (digits2_pos m) - 1)) by lia.
    rewrite !Z.pow_succ_r by lia.
    revert IH. generalize (2 ^ (Z.pos (digits2_pos m) - 1)), (2 ^ Z.pos (digits2_pos m)). intros; lia.
  - rewrite Pos2Z.inj_succ. change (Z.pos m~0) with (2 * Z.pos m).
    replace (Z.succ (Z.pos (digits2_pos m)) - 1) with (Z.succ (Z.pos (digits2_pos m) - 1)) by lia.
    rewrite !Z.pow_succ_r by lia.
    revert IH. generalize (2 ^ (Z.pos (digits2_pos m) - 1)), (2 ^ Z.pos (digits2_pos m)). intros; lia.
  - simpl. lia.
Qed.

Lemma shr_1_m (mrs : shr_record) :
  0 <= shr_m mrs -> shr_m (shr_1 mrs) = shr_m mrs / 2.
Proof.
  destruct mrs as [m r s]. simpl. intros Hm.
  destruct m as [|p|p]; [done| |lia].
  destruct p as [p|p|]; simpl.
  - change (Z.pos p~1) with (2 * Z.pos p + 1). apply Z.div_unique with 1; lia.
  - change (Z.pos p~0) with (2 * Z.pos p). apply Z.div_unique with 0; lia.
  - done.
Qed.

Lemma shr_1_nonneg (mrs : shr_record) : 0 <= shr_m mrs -> 0 <= shr_m (shr_1 mrs).
Proof. intros H. rewrite shr_1_m by done. apply Z.div_pos; lia. Qed.

Lemma pow2_xO (p : positive) : 2 ^ Z.pos p~0 = 2 ^ Z.pos p * 2 ^ Z.pos p.
Proof. replace (Z.pos p~0) with (Z.pos p + Z.pos p) by lia. apply Z.pow_add_r; lia. Qed.

Lemma pow2_xI (p : positive) : 2 ^ Z.pos p~1 = 2 * (2 ^ Z.pos p * 2 ^ Z.pos p).
Proof.
  replace (Z.pos p~1) with (Z.succ (Z.pos p + Z.pos p)) by lia.
  rewrite Z.pow_succ_r, Z.pow_add_r by lia. done.
Qed.

Lemma pow2_pos (n : Z) : 0 <= n -> 0 < 2 ^ n.
Proof. intros. apply Z.pow_pos_nonneg; lia. Qed.

Lemma iter_pos_xI {A} (f : A -> A) p x :
  SpecFloat.iter_pos f p~1 x = SpecFloat.iter_pos f p (SpecFloat.iter_pos f p (f x)).
Proof. reflexivity. Qed.

Lemma iter_pos_xO {A} (f : A -> A) p x :
  SpecFloat.iter_pos f p~0 x = SpecFloat.iter_pos f p (SpecFloat.iter_pos f p x).
Proof. reflexivity. Qed.

Lemma iter_pos_xH {A} (f : A -> A) x : SpecFloat.iter_pos f 1 x = f x.
Proof. reflexivity. Qed.

Lemma iter_shr_m (p : positive) (mrs : shr_record) :
  0 <= shr_m mrs ->
  shr_m (SpecFloat.iter_pos shr_1 p mrs) = shr_m mrs / 2 ^ Z.pos p.
Proof.
  revert mrs. induction p as [p IH | p IH |]; intros mrs Hm;
    rewrite ?iter_pos_xI, ?iter_pos_xO, ?iter_pos_xH.
  - assert (Hp : 0 < 2 ^ Z.pos p) by (apply pow2_pos; lia).
    assert (H1 : 0 <= shr_m (shr_1 mrs)) by (by apply shr_1_nonneg).
    assert (H2 : 0 <= shr_m (SpecFloat.iter_pos shr_1 p (shr_1 mrs))).
    { rewrite IH by done. apply Z.div_pos; lia. }
    rewrite IH, IH, shr_1_m by done.
    rewrite !Z.div_div by lia. by rewrite pow2_xI.
  - assert (Hp : 0 < 2 ^ Z.pos p) by (apply pow2_pos; lia).
    assert (H2 : 0 <= shr_m (SpecFloat.iter_pos shr_1 p mrs)).
    { rewrite IH by done. apply Z.div_pos; lia. }
    rewrite IH, IH by done. rewrite Z.div_div by lia. by rewrite pow2_xO.
  - rewrite shr_1_m by done. by rewrite Z.pow_1_r.
Qed.

Lemma shr_1_exact (k : Z) :
  0 <= k ->
  shr_1 {| shr_m := k * 2; shr_r := false; shr_s := false |} =
    {| shr_m := k; shr_r := false; shr_s := false |}.
Proof.
  intros Hk. destruct k as [|k|k]; [done| |lia].
  simpl. replace (k * 2)%positive with (k~0)%positive by lia. done.
Qed.

Lemma iter_shr_exact (p : positive) (k : Z) :
  0 <= k ->
  SpecFloat.iter_pos shr_1 p {| shr_m := k * 2 ^ Z.pos p; shr_r := false; shr_s := false |} =
    {| shr_m := k; shr_r := false; shr_s := false |}.
Proof.
  revert k. induction p as [p IH | p IH |]; intros k Hk;
    rewrite ?iter_pos_xI, ?iter_pos_xO, ?iter_pos_xH.
  - assert (Hp : 0 < 2 ^ Z.pos p) by (apply pow2_pos; lia).
    replace (k * 2 ^ Z.pos p~1) with ((k * 2 ^ Z.pos p * 2 ^ Z.pos p) * 2)
      by (rewrite pow2_xI; lia).
    rewrite shr_1_exact by nia. rewrite IH by nia. by rewrite IH.
  - assert (Hp : 0 < 2 ^ Z.pos p) by (apply pow2_pos; lia).
    replace (k * 2 ^ Z.pos p~0) with ((k * 2 ^ Z.pos p) * 2 ^ Z.pos p)
      by (rewrite pow2_xO; lia).
    rewrite IH by nia. by rewrite IH.
  - rewrite Z.pow_1_r. by apply shr_1_exact.
Qed.

Lemma binary_round_aux_finish (q e : Z) (l : location) :
  binary_round_aux prec emax false q e l =
    let '(mrs1, e1) := shr_fexp prec emax q e l in
    let '(mrs2, e2) :=
      shr_fexp prec emax (round_nearest_even (shr_m mrs1) (loc_of_shr_record mrs1)) e1 loc_Exact in
    finish mrs2 e2.
Proof. reflexivity. Qed.

Lemma fexp_eq (x : Z) : fexp prec emax x = Z.max (x - 53) (-1074).
Proof. reflexivity. Qed.

Lemma sfltb_one_finite (m : positive) (e : Z) :
  e <= -53 \/ (e = -52 /\ Z.pos m <= 4503599627370496) ->
  SFltb one_sf (S754_finite false m e) = false.
Proof.
  intros H. unfold SFltb, SFcompare, one_sf.
  destruct (Z.compare_spec (-52) e) as [Heq|Hlt|Hgt]; [|lia|done].
  destruct H as [H|[_ H]]; [lia|].
  rewrite Pos.compare_cont_spec. simpl Pos.switch_Eq.
  destruct (Pos.compare_spec 4503599627370496 m) as [?|Hc|?];
    [reflexivity| |reflexivity].
  apply Pos2Z.pos_lt_pos in Hc. exfalso. revert H Hc. clear. intros. lia.
Qed.

Lemma final_le_one (m2 e1 : Z) :
  0 <= m2 <= 9007199254740992 ->
  -1074 <= e1 ->
  e1 <= -53 \/ (e1 = -52 /\ m2 <= 4503599627370496) ->
  SFltb one_sf (let '(mrs2, e2) := shr_fexp prec emax m2 e1 loc_Exact in finish mrs2 e2) = false.
Proof.
  intros Hm He Hcase. unfold shr_fexp. rewrite fexp_eq.
  destruct m2 as [|m|m]; [| |lia].
  - simpl Zdigits2. unfold shr.
    destruct (Z.max (0 + e1 - 53) (-1074) - e1) eqn:En; try lia; done.
  - simpl Zdigits2. pose proof (digits2_pos_bounds m) as [Hlo Hhi].
    destruct (Z.eq_dec (Z.pos m) 9007199254740992) as [Heq|Hne].
    + injection Heq as ->. clear Hlo Hhi. change (digits2_pos 9007199254740992) with 54%positive.
      replace (Z.max (54 + e1 - 53) (-1074) - e1) with 1 by lia.
      unfold shr. simpl. unfold finish. simpl shr_m.
      replace (e1 + 1 <=? emax - prec) with true
        by (symmetry; apply Z.leb_le; change (emax - prec) with 971; lia).
      apply sfltb_one_finite. lia.
    + assert (Hd : Z.pos (digits2_pos m) <= 53).
      { destruct (Z.le_gt_cases (Z.pos (digits2_pos m)) 53) as [?|Hgt]; [done|].
        assert (2 ^ 53 <= 2 ^ (Z.pos (digits2_pos m) - 1)) by (apply Z.pow_le_mono_r; lia).
        change (2 ^ 53) with 9007199254740992 in *. lia. }
      unfold shr.
      destruct (Z.max (Z.pos (digits2_pos m) + e1 - 53) (-1074) - e1) eqn:En; try lia.
      * unfold finish. simpl shr_m.
        replace (e1 <=? emax - prec) with true
          by (symmetry; apply Z.leb_le; change (emax - prec) with 971; lia).
        apply sfltb_one_finite. lia.
      * unfold finish. simpl shr_m.
        replace (e1 <=? emax - prec) with true
          by (symmetry; apply Z.leb_le; change (emax - prec) with 971; lia).
        apply sfltb_one_finite. lia.
Qed.

Lemma Zdigits2_bounds (q : Z) :
  0 <= q -> 0 <= Zdigits2 q /\ q < 2 ^ Zdigits2 q /\ (0 < q -> 2 ^ (Zdigits2 q - 1) <= q).
Proof.
  intros Hq. destruct q as [|m|m]; [simpl; lia| |lia].
  simpl Zdigits2. pose proof (digits2_pos_bounds m). lia.
Qed.

Lemma shr_record_of_loc_m (m : Z) (l : location) : shr_m (shr_record_of_loc m l) = m.
Proof. by destruct l as [|[]]. Qed.

Lemma loc_of_shr_record_of_loc (m : Z) (l : location) :
  loc_of_shr_record (shr_record_of_loc m l) = l.
Proof. by destruct l as [|[]]. Qed.

Lemma round_nearest_even_bounds (m : Z) (l : location) :
  m <= round_nearest_even m l <= m + 1.
Proof. destruct l as [|[]]; simpl; try lia. destruct (Z.even m); lia. Qed.

Lemma round_le_one (q e : Z) (l : location) :
  0 <= q ->
  -1074 <= e <= -53 ->
  q <= 2 ^ (- e) ->
  (q = 2 ^ (- e) -> l = loc_Exact) ->
  SFltb one_sf (binary_round_aux prec emax false q e l) = false.
Proof.
  intros Hq He Hle Hexact. rewrite binary_round_aux_finish.
  destruct (Zdigits2_bounds q Hq) as (Hd0 & Hdhi & Hdlo).
  unfold shr_fexp at 1. rewrite fexp_eq. unfold shr.
  destruct (Z.max (Zdigits2 q + e - 53) (-1074) - e) as [|p|p] eqn:En.
  - rewrite shr_record_of_loc_m, loc_of_shr_record_of_loc.
    pose proof (round_nearest_even_bounds q l).
    assert (q < 2 ^ 53).
    { eapply Z.lt_le_trans; [exact Hdhi|]. apply Z.pow_le_mono_r; lia. }
    change (2 ^ 53) with 9007199254740992 in *.
    apply final_le_one; lia.
  - assert (Hpow : 0 < 2 ^ Z.pos p) by (apply pow2_pos; lia).
    rewrite iter_shr_m by (rewrite shr_record_of_loc_m; lia).
    rewrite shr_record_of_loc_m.
    assert (Hm1 : q / 2 ^ Z.pos p < 2 ^ 53).
    { apply Z.div_lt_upper_bound; [lia|]. rewrite <- Z.pow_add_r by lia.
      eapply Z.lt_le_trans; [exact Hdhi|]. apply Z.pow_le_mono_r; lia. }
    assert (Hm0 : 0 <= q / 2 ^ Z.pos p) by (apply Z.div_pos; lia).
    change (2 ^ 53) with 9007199254740992 in *.
    destruct (Z.le_gt_cases (e + Z.pos p) (-53)) as [Hlow|Hhigh].
    + pose proof (round_nearest_even_bounds (q / 2 ^ Z.pos p)
                    (loc_of_shr_record
                       (SpecFloat.iter_pos shr_1 p (shr_record_of_loc q l)))).
      apply final_le_one; lia.
    + assert (Hp : Z.pos p = Zdigits2 q - 53) by lia.
      assert (Hq0 : 0 < q).
      { destruct (Z.eq_dec q 0) as [->|]; [simpl in Hp; lia | lia]. }
      specialize (Hdlo Hq0).
      assert (Hd1 : Zdigits2 q - 1 <= - e).
      { apply (Z.pow_le_mono_r_iff 2); lia. }
      assert (He1 : e + Z.pos p = -52) by lia.
      assert (Hq2 : q = 4503599627370496 * 2 ^ Z.pos p).
      { change 4503599627370496 with (2 ^ 52). rewrite <- Z.pow_add_r by lia.
        replace (52 + Z.pos p) with (- e) by lia.
        replace (Zdigits2 q - 1) with (- e) in Hdlo by lia. lia. }
      assert (Hl : l = loc_Exact).
      { apply Hexact. rewrite Hq2. replace (- e) with (52 + Z.pos p) by lia.
        rewrite Z.pow_add_r by lia. done. }
      subst l. rewrite Hq2. simpl shr_record_of_loc.
      rewrite iter_shr_exact by lia. rewrite Z.div_mul by lia.
      simpl loc_of_shr_record. simpl round_nearest_even. rewrite He1.
      apply final_le_one; lia.
  - rewrite shr_record_of_loc_m, loc_of_shr_record_of_loc.
    pose proof (round_nearest_even_bounds q l).
    assert (q < 2 ^ 53).
    { eapply Z.lt_le_trans; [exact Hdhi|]. apply Z.pow_le_mono_r; lia. }
    change (2 ^ 53) with 9007199254740992 in *.
    apply final_le_one; lia.
Qed.

Lemma bounded_inv (m : positive) (e : Z) :
  bounded prec emax m e = true ->
  Z.pos (digits2_pos m) <= 53 /\ -1074 <= e <= 971 /\
  (e = -1074 \/ Z.pos (digits2_pos m) = 53).
Proof.
  unfold bounded, canonical_mantissa. rewrite fexp_eq.
  intros H. apply andb_prop in H as [H1 H2].
  apply Z.eqb_eq in H1. apply Z.leb_le in H2.
  change (emax - prec) with 971 in H2. lia.
Qed.

Lemma sfltb_one_negative (q e : Z) (l : location) :
  SFltb one_sf (binary_round_aux prec emax true q e l) = false.
Proof.
  unfold binary_round_aux.
  destruct (shr_fexp prec emax q e l) as [mrs1 e1].
  destruct (shr_fexp prec emax _ e1 loc_Exact) as [mrs2 e2].
  destruct (shr_m mrs2); [done| |done].
  by destruct (e2 <=? emax - prec).
Qed.

Lemma div_3600_core (m : positive) (e : Z) :
  bounded prec emax m e = true ->
  e < -41 \/ (e = -41 /\ Z.pos m <= 7916483719987200) ->
  SFltb one_sf
    (SF64div (S754_finite false m e) (S754_finite false 7916483719987200 (-41))) = false.
Proof.
  intros Hb Hle. apply bounded_inv in Hb as (HD & He & Hcanon).
  pose proof (digits2_pos_bounds m) as [_ Hhi].
  assert (Hm53 : Z.pos m < 2 ^ 53).
  { eapply Z.lt_le_trans; [exact Hhi|]. apply Z.pow_le_mono_r; lia. }
  unfold SF64div, SFdiv, SFdiv_core_binary. simpl xorb.
  change (Zdigits2 (Z.pos 7916483719987200)) with 53.
  simpl (Zdigits2 (Z.pos m)). rewrite fexp_eq.
  set (e' := Z.min (Z.max (Z.pos (digits2_pos m) + e - (53 + -41) - 53) (-1074)) (e - -41)).
  assert (He' : -1074 <= e' <= -53) by lia.
  assert (Hs : 0 < e - -41 - e') by lia.
  destruct (e - -41 - e') as [|s|s] eqn:Es; [lia| |lia].
  rewrite Z.shiftl_mul_pow2 by lia.
  assert (Hps : 0 < 2 ^ Z.pos s) by (apply pow2_pos; lia).
  pose proof (Z_div_mod (Z.pos m * 2 ^ Z.pos s) 7916483719987200 eq_refl) as Hdm.
  destruct (Z.div_eucl (Z.pos m * 2 ^ Z.pos s) 7916483719987200) as [q r].
  destruct Hdm as [Hdm Hr].
  assert (Hbound : Z.pos m * 2 ^ Z.pos s <= 7916483719987200 * 2 ^ (- e')).
  { destruct Hle as [Hlt|[-> Hm]].
    - replace (- e') with ((- 41 - e) + Z.pos s) by lia.
      rewrite Z.pow_add_r by lia.
      assert (2 ^ 1 <= 2 ^ (-41 - e)) by (apply Z.pow_le_mono_r; lia).
      change (2 ^ 1) with 2 in *. change (2 ^ 53) with 9007199254740992 in *. nia.
    - replace (- e') with (Z.pos s) by lia. nia. }
  assert (Hpe : 0 < 2 ^ (- e')) by (apply pow2_pos; lia).
  assert (Hq0 : 0 <= q) by nia.
  apply round_le_one; [done | done | nia |].
  intros Hq. assert (r = 0) by nia. subst r. reflexivity.
Qed.

Lemma div_3600_at_most_1 (d : float) :
  (d <=? 3600)%float = true -> (1 <? d / 3600)%float = false.
Proof.
  intros H. rewrite leb_spec in H. rewrite ltb_spec, div_spec.
  change (Prim2SF 3600) with (S754_finite false 7916483719987200 (-41)) in *.
  change (Prim2SF 1) with one_sf.
  pose proof (Prim2SF_valid d) as Hv.
  destruct (Prim2SF d) as [s|s| |s m e].
  - by destruct s.
  - destruct s; [done | discriminate].
  - discriminate.
  - destruct s.
    + unfold SF64div, SFdiv. simpl xorb.
      destruct (SFdiv_core_binary _ _ _ _ _ _) as [[mz ez] lz].
      apply sfltb_one_negative.
    + apply div_3600_core; [exact Hv|].
      unfold SFleb, SFcompare in H.
      destruct (Z.compare_spec e (-41)) as [Heq|Hlt|Hgt]; [|by left|discriminate].
      right. split; [done|].
      rewrite Pos.compare_cont_spec in H. simpl Pos.switch_Eq in H.
      destruct (Pos.compare_spec m 7916483719987200) as [Hm|Hm|Hm];
        [| |discriminate]; clear H Hv.
      * rewrite Hm. apply Z.le_refl.
      * apply Z.lt_le_incl. exact Hm.
Qed.

Lemma sfleb_fifty_finite (m : positive) (e : Z) :
  -46 <= e \/ (e = -47 /\ 7036874417766400 <= Z.pos m) ->
  SFleb fifty_sf (S754_finite false m e) = true.
Proof.
  intros H. unfold SFleb, SFcompare, fifty_sf.
  destruct (Z.compare_spec (-47) e) as [Heq|Hlt|Hgt]; [|done|lia].
  destruct H as [H|[_ H]]; [lia|].
  rewrite Pos.compare_cont_spec. simpl Pos.switch_Eq.
  destruct (Pos.compare_spec 7036874417766400 m) as [?|?|Hc];
    [reflexivity|reflexivity|].
  apply Pos2Z.pos_lt_pos in Hc. exfalso. revert H Hc. clear. intros. lia.
Qed.

Lemma final_at_least_fifty (m2 e1 : Z) :
  4503599627370496 <= m2 <= 9007199254740992 ->
  -46 <= e1 \/ (e1 = -47 /\ 7036874417766400 <= m2) ->
  SFleb fifty_sf
    (let '(mrs2, e2) := shr_fexp prec emax m2 e1 loc_Exact in finish mrs2 e2) = true.
Proof.
  intros Hm Hcase. unfold shr_fexp. rewrite fexp_eq.
  destruct m2 as [|m|m]; [lia| |lia].
  simpl Zdigits2. pose proof (digits2_pos_bounds m) as [Hlo Hhi].
  destruct (Z.eq_dec (Z.pos m) 9007199254740992) as [Heq|Hne].
  - injection Heq as ->. clear Hlo Hhi.
    change (digits2_pos 9007199254740992) with 54%positive.
    replace (Z.max (54 + e1 - 53) (-1074) - e1) with 1 by lia.
    unfold shr. simpl. unfold finish. simpl shr_m.
    destruct (e1 + 1 <=? emax - prec); [|done].
    apply sfleb_fifty_finite. lia.
  - assert (Hd : Z.pos (digits2_pos m) = 53).
    { apply Z.le_antisymm.
      - destruct (Z.le_gt_cases (Z.pos (digits2_pos m)) 53) as [?|Hgt]; [done|].
        assert (2 ^ 53 <= 2 ^ (Z.pos (digits2_pos m) - 1)) by (apply Z.pow_le_mono_r; lia).
        change (2 ^ 53) with 9007199254740992 in *. lia.
      - destruct (Z.le_gt_cases 53 (Z.pos (digits2_pos m))) as [?|Hgt]; [done|].
        assert (2 ^ Z.pos (digits2_pos m) <= 2 ^ 52) by (apply Z.pow_le_mono_r; lia).
        change (2 ^ 52) with 4503599627370496 in *. lia. }
    rewrite Hd. replace (Z.max (53 + e1 - 53) (-1074) - e1) with 0 by lia.
    unfold shr, finish. simpl shr_m.
    destruct (e1 <=? emax - prec); [|done].
    apply sfleb_fifty_finite. lia.
Qed.

Lemma mul_50_core (m : positive) (e : Z) :
  bounded prec emax m e = true ->
  -52 < e \/ (e = -52 /\ 4503599627370496 < Z.pos m) ->
  SFleb fifty_sf
    (SF64mul (S754_finite false m e) (S754_finite false 7036874417766400 (-47))) = true.
Proof.
  intros Hb Hgt. apply bounded_inv in Hb as (HD & He & Hcanon).
  assert (Hd53 : Z.pos (digits2_pos m) = 53) by lia.
  pose proof (digits2_pos_bounds m) as [Hmlo Hmhi]. rewrite Hd53 in Hmlo, Hmhi.
  change (2 ^ (53 - 1)) with 4503599627370496 in Hmlo.
  change (2 ^ 53) with 9007199254740992 in Hmhi.
  unfold SF64mul, SFmul. simpl xorb. rewrite binary_round_aux_finish.
  rewrite Pos2Z.inj_mul.
  set (P := Z.pos m * 7036874417766400).
  assert (HP0 : 0 < P) by (unfold P; lia).
  destruct (Zdigits2_bounds P (Z.lt_le_incl _ _ HP0)) as (_ & HPhi & HPlo).
  specialize (HPlo HP0).
  assert (HdP : 105 <= Zdigits2 P <= 106).
  { split.
    - destruct (Z.le_gt_cases 105 (Zdigits2 P)) as [?|Hc]; [done|].
      assert (2 ^ Zdigits2 P <= 2 ^ 104).
      { destruct (Z.le_gt_cases 0 (Zdigits2 P)).
        - apply Z.pow_le_mono_r; lia.
        - rewrite Z.pow_neg_r by lia. done. }
      change (2 ^ 104) with (4503599627370496 * 4503599627370496) in *.
      unfold P in *. nia.
    - destruct (Z.le_gt_cases (Zdigits2 P) 106) as [?|Hc]; [done|].
      assert (2 ^ 106 <= 2 ^ (Zdigits2 P - 1)) by (apply Z.pow_le_mono_r; lia).
      change (2 ^ 106) with (9007199254740992 * 9007199254740992) in *.
      unfold P in *. nia. }
  unfold shr_fexp at 1. rewrite fexp_eq. unfold shr.
  destruct (Z.max (Zdigits2 P + (e + -47) - 53) (-1074) - (e + -47)) as [|p|p] eqn:En;
    [lia| |lia].
  assert (Hp : Z.pos p = Zdigits2 P - 53) by lia.
  assert (Hpow : 0 < 2 ^ Z.pos p) by (apply pow2_pos; lia).
  rewrite iter_shr_m by (simpl; lia). simpl (shr_m (shr_record_of_loc P loc_Exact)).
  assert (Hm1lo : 2 ^ 52 <= P / 2 ^ Z.pos p).
  { apply Z.div_le_lower_bound; [lia|]. rewrite <- Z.pow_add_r by lia.
    replace (Z.pos p + 52) with (Zdigits2 P - 1) by lia. exact HPlo. }
  assert (Hm1hi : P / 2 ^ Z.pos p < 2 ^ 53).
  { apply Z.div_lt_upper_bound; [lia|]. rewrite <- Z.pow_add_r by lia.
    replace (Z.pos p + 53) with (Zdigits2 P) by lia. exact HPhi. }
  change (2 ^ 52) with 4503599627370496 in Hm1lo.
  change (2 ^ 53) with 9007199254740992 in Hm1hi.
  pose proof (round_nearest_even_bounds (P / 2 ^ Z.pos p)
                (loc_of_shr_record
                   (SpecFloat.iter_pos shr_1 p (shr_record_of_loc P loc_Exact)))) as Hr.
  apply final_at_least_fifty; [lia|].
  destruct (Z.le_gt_cases (-46) (e + -47 + Z.pos p)) as [?|Hlow]; [by left|].
  right. assert (He52 : e = -52) by lia. assert (Hp52 : Z.pos p = 52) by lia.
  split; [lia|].
  assert (7036874417766400 <= P / 2 ^ Z.pos p); [|lia].
  apply Z.div_le_lower_bound; [lia|]. rewrite Hp52.
  change (2 ^ 52) with 4503599627370496. unfold P. nia.
Qed.

Lemma mul_50_at_least_50 (h : float) :
  (1 <? h)%float = true -> (50 <=? h * 50)%float = true.
Proof.
  intros H. rewrite ltb_spec in H. rewrite leb_spec, mul_spec.
  change (Prim2SF 50) with fifty_sf.
  change (Prim2SF 1) with one_sf in H.
  pose proof (Prim2SF_valid h) as Hv.
  destruct (Prim2SF h) as [s|s| |s m e].
  - by destruct s.
  - by destruct s.
  - discriminate.
  - destruct s; [discriminate|].
    apply mul_50_core; [exact Hv|].
    unfold SFltb, SFcompare, one_sf in H.
    destruct (Z.compare_spec (-52) e) as [Heq|Hlt|Hgt]; [|by left|discriminate].
    right. split; [done|].
    rewrite Pos.compare_cont_spec in H. simpl Pos.switch_Eq in H.
    destruct (Pos.compare_spec 4503599627370496 m) as [Hm|Hm|Hm];
      [discriminate| |discriminate]; clear H Hv.
    exact Hm.
Qed.

Lemma leb_1_not_above (h : float) :
  (h <=? 1)%float = true -> (1 <? h)%float = false.
Proof.
  intros H. rewrite leb_spec in H. rewrite ltb_spec.
  change (Prim2SF 1) with one_sf in *.
  destruct (Prim2SF h) as [s|s| |s m e].
  - by destruct s.
  - destruct s; [done | discriminate].
  - discriminate.
  - destruct s; [done|].
    apply sfltb_one_finite.
    unfold SFleb, SFcompare, one_sf in H.
    destruct (Z.compare_spec e (-52)) as [Heq|Hlt|Hgt]; [|left; lia|discriminate].
    right. split; [done|].
    rewrite Pos.compare_cont_spec in H. simpl Pos.switch_Eq in H.
    destruct (Pos.compare_spec m 4503599627370496) as [Hm|Hm|Hm];
      [| |discriminate]; clear H.
    + rewrite Hm. apply Z.le_refl.
    + apply Z.lt_le_incl. exact Hm.
Qed.

(** ** The hourly fee *)

Lemma hourly_fee_cases (e x : float) :
  HourlyPricing.calculate_fee e x =
    if (1 <? (x - e) / 3600)%float
    then PyFloat ((x - e) / 3600 * 50)
    else PyInt 50.
Proof.
  unfold HourlyPricing.calculate_fee, HourlyPricing.max_1. cbv zeta.
  by destruct (1 <? (x - e) / 3600)%float.
Qed.

Lemma hourly_fee_at_least (e x : float) : at_least_50 (HourlyPricing.calculate_fee e x).
Proof.
  rewrite hourly_fee_cases.
  destruct (1 <? (x - e) / 3600)%float eqn:Hh; simpl; [|lia].
  by apply mul_50_at_least_50.
Qed.

(** C3. On the binary64 numbers of the code, with the unit rate 50, the
    hourly fee is [max(1, (x - e) / 3600) * 50]: the int 50 when the
    elapsed hours are not above 1, and the float product of the hours with
    50 otherwise, so the hours are never rounded up to a whole number. A
    stay of at most one hour, measured in hours or in seconds, costs
    exactly 50, as one of 300 seconds does; a stay of 5400 seconds costs
    exactly 75; one of 3601 seconds costs a little over 50 and not 100. *)
Theorem hourly_fee_floor_no_ceiling (e x : float) :
  let hours := ((x - e) / 3600)%float in
  HourlyPricing.calculate_fee e x =
    HourlyPricing.times_50 (if (1 <? hours)%float then PyFloat hours else PyInt 1) /\
  ((1 <? hours)%float = false -> HourlyPricing.calculate_fee e x = PyInt 50) /\
  ((hours <=? 1)%float = true -> HourlyPricing.calculate_fee e x = PyInt 50) /\
  ((x - e <=? 3600)%float = true -> HourlyPricing.calculate_fee e x = PyInt 50) /\
  ((1 <? hours)%float = true ->
     HourlyPricing.calculate_fee e x = PyFloat (hours * 50) /\
     (50 <=? hours * 50)%float = true) /\
  ((x - e)%float = 300%float -> HourlyPricing.calculate_fee e x = PyInt 50) /\
  ((x - e)%float = 5400%float -> HourlyPricing.calculate_fee e x = PyFloat 75) /\
  ((x - e)%float = 3601%float ->
     HourlyPricing.calculate_fee e x = PyFloat 0x1.901c71c71c71dp+5).
Proof.
  cbv zeta. rewrite hourly_fee_cases.
  split; [by destruct (1 <? (x - e) / 3600)%float|].
  split; [by intros ->|].
  split; [intros H; by rewrite (leb_1_not_above _ H)|].
  split; [intros H; by rewrite (div_3600_at_most_1 _ H)|].
  split; [intros H; rewrite H; split; [done | by apply mul_50_at_least_50]|].
  split; [by intros ->|]. split; by intros ->.
Qed.

Lemma hourly_fee_floor_no_ceiling_witness :
  HourlyPricing.calculate_fee 0 300 = PyInt 50 /\
  HourlyPricing.calculate_fee 0 3600 = PyInt 50 /\
  HourlyPricing.calculate_fee 0 5400 = PyFloat 75 /\
  HourlyPricing.calculate_fee 1700000000.25 1700005400.25 = PyFloat 75.
Proof.
  split; [|split; [|split]].
  - apply (hourly_fee_floor_no_ceiling 0 300). reflexivity.
  - destruct (hourly_fee_floor_no_ceiling 0 3600) as (_ & _ & _ & Hseconds & _).
    apply Hseconds. reflexivity.
  - apply (hourly_fee_floor_no_ceiling 0 5400). reflexivity.
  - apply (hourly_fee_floor_no_ceiling 1700000000.25 1700005400.25). reflexivity.
Defined.

(** ** Entry *)

Lemma find_spot_valid s vehicle_type a :
  _find_spot s vehicle_type = Some a -> suitable (heap s) (mapping vehicle_type) a.
Proof. intros H. apply scan_some in H as (i & _ & Hs & _). exact Hs. Qed.

Lemma first_suitable_found (s : State) (vehicle_type : VehicleType) (i : nat) (a : addr) :
  _spots (self s) !! i = Some a ->
  suitable (heap s) (mapping vehicle_type) a ->
  (forall j b, (j < i)%nat -> _spots (self s) !! j = Some b ->
               ~ suitable (heap s) (mapping vehicle_type) b) ->
  _find_spot s vehicle_type = Some a.
Proof.
  intros Hi Hs Hfirst. unfold _find_spot.
  destruct (scan (heap s) (mapping vehicle_type) (_spots (self s))) as [a'|] eqn:E.
  - apply scan_some in E as (i' & Hi' & Hs' & Hfirst').
    destruct (Nat.lt_trichotomy i i') as [Hlt|[<-|Hgt]].
    + exfalso. by apply (Hfirst' i a).
    + congruence.
    + exfalso. by apply (Hfirst i' a').
  - exfalso. apply (proj1 (scan_none _ _ _) E a); [|exact Hs].
    by eapply list_elem_of_lookup_2.
Qed.

(** C6. When no registered spot is free and of the vehicle's class,
    [park_vehicle] prints "Parking Full", returns [None] and leaves the
    whole state as it was. Otherwise, for the first such spot of the
    registration list: its occupancy flag, false before, is true
    afterwards, with its identifier and class kept; a ticket with the
    current counter as identifier, the vehicle, that spot and the clock
    value read at creation is filed in the ledger under its identifier and
    returned; the counter advances by one; no other spot and no other
    ledger entry changes. *)
Theorem park_vehicle_outcomes (now : float) (vehicle : Vehicle.t) (s : State) :
  let r := park_vehicle now vehicle s in
  let n := _ticket_counter (self s) in
  let want := mapping (Vehicle.get_type vehicle) in
  ((forall a, a ∈ _spots (self s) -> ~ suitable (heap s) want a) ->
     ret r = None /\ state r = s /\ out r = [Print ParkingFull]) /\
  (forall i a,
     _spots (self s) !! i = Some a ->
     suitable (heap s) want a ->
     (forall j b, (j < i)%nat -> _spots (self s) !! j = Some b ->
                  ~ suitable (heap s) want b) ->
     let ticket := {| ParkingTicket._ticket_id := n;
                      ParkingTicket._vehicle := vehicle;
                      ParkingTicket._spot := a;
                      ParkingTicket._entry_time := now |} in
     ret r = Some ticket /\
     out r = [Print (TicketGenerated n)] /\
     (exists o o', heap s !! a = Some o /\
                   ParkingSpot._occupied o = false /\
                   heap (state r) !! a = Some o' /\
                   ParkingSpot._occupied o' = true /\
                   ParkingSpot.is_available o' = false /\
                   ParkingSpot._id o' = ParkingSpot._id o /\
                   ParkingSpot._type o' = want) /\
     (forall b, b <> a -> heap (state r) !! b = heap s !! b) /\
     _tickets (self (state r)) !! n = Some ticket /\
     (forall k, k <> n -> _tickets (self (state r)) !! k = _tickets (self s) !! k) /\
     _ticket_counter (self (state r)) = n + 1 /\
     _spots (self (state r)) = _spots (self s) /\
     _pricing_strategy (self (state r)) = _pricing_strategy (self s)).
Proof.
  cbv zeta. split.
  - intros Hnone. apply scan_none in Hnone.
    unfold park_vehicle, _find_spot. by rewrite Hnone.
  - intros i a Hi Hs Hfirst.
    pose proof (first_suitable_found s _ i a Hi Hs Hfirst) as E.
    unfold park_vehicle. rewrite E. simpl.
    destruct Hs as (o & Ho & Hty & Hocc).
    split; [reflexivity|]. split; [reflexivity|]. split.
    { exists o, (ParkingSpot.occupy o). rewrite list_lookup_alter_eq, Ho. by repeat split. }
    split. { intros b Hb. by apply list_lookup_alter_ne. }
    split. { apply lookup_insert_eq. }
    split. { intros k Hk. by apply lookup_insert_ne. }
    auto.
Qed.

Lemma park_vehicle_outcomes_witness :
  ret (park_vehicle 5400 (Vehicle.init "KA02CD5678" CAR) one_car) = None /\
  exists o', heap one_car !! 0%nat = Some o' /\ ParkingSpot._occupied o' = true.
Proof.
  split.
  - apply (park_vehicle_outcomes 5400 (Vehicle.init "KA02CD5678" CAR) one_car).
    intros a Ha (o & Ho & _ & Hfree).
    apply list_elem_of_singleton in Ha. subst a.
    vm_compute in Ho. injection Ho as <-. discriminate.
  - destruct (park_vehicle_outcomes 0 (Vehicle.init "KA01AB1234" CAR)
                (initial [(2, REGULAR)] [0%nat])) as [_ Hfound].
    destruct (Hfound 0%nat 0%nat eq_refl) as (_ & _ & (o & o' & _ & _ & Ho' & Hocc & _) & _).
    + exists (ParkingSpot.init 2 REGULAR). by repeat split.
    + intros j b Hj. lia.
    + exists o'. split; [exact Ho' | exact Hocc].
Defined.

(** ** Exit *)

(** C5. With a ticket identifier that is not in the ledger, [exit_vehicle]
    prints "Invalid Ticket" and nothing else, the heap of spots, the
    ledger and the counter stay as they were, whatever the payment
    strategy is, and [pay] is not called. *)
Theorem exit_unknown_ticket (now : float) (ticket_id : Z) (p : PaymentStrategy) (s : State)
    (Habsent : _tickets (self s) !! ticket_id = None) :
  let r := exit_vehicle now ticket_id p s in
  ret r = PyNone_ /\
  state r = s /\
  out r = [Print InvalidTicket] /\
  (forall amount, PayCall amount ∉ out r).
Proof.
  unfold exit_vehicle. rewrite Habsent. simpl.
  repeat split. intros amount Hin.
  apply list_elem_of_singleton in Hin. discriminate.
Qed.

Lemma exit_unknown_ticket_witness :
  _tickets (self one_car) !! 7 = None /\
  state (exit_vehicle 0 7 refusing one_car) = one_car.
Proof.
  split; [reflexivity|].
  apply (exit_unknown_ticket 0 7 refusing one_car). reflexivity.
Defined.

Lemma exit_vehicle_declined now ticket_id p s ticket :
  _tickets (self s) !! ticket_id = Some ticket ->
  (pay p (fee_due s ticket now)).2 = false ->
  exit_vehicle now ticket_id p s =
    {| ret := PyNone_; state := s;
       out := PayCall (fee_due s ticket now) :: map Print (pay p (fee_due s ticket now)).1 |}.
Proof.
  unfold exit_vehicle, fee_due. intros -> Hp.
  destruct (pay p _) as [printed ok]. simpl in Hp. by subst ok.
Qed.

Lemma exit_vehicle_paid now ticket_id p s ticket :
  _tickets (self s) !! ticket_id = Some ticket ->
  (pay p (fee_due s ticket now)).2 = true ->
  exit_vehicle now ticket_id p s =
    {| ret := PyNone_;
       state := {| heap := alter ParkingSpot.free (ParkingTicket._spot ticket) (heap s);
                   self := {| _spots := _spots (self s);
                              _tickets := delete ticket_id (_tickets (self s));
                              _ticket_counter := _ticket_counter (self s);
                              _pricing_strategy := _pricing_strategy (self s) |} |};
       out := (PayCall (fee_due s ticket now) :: map Print (pay p (fee_due s ticket now)).1)
              ++ [Print ExitSuccessful] |}.
Proof.
  unfold exit_vehicle, fee_due. intros -> Hp.
  destruct (pay p _) as [printed ok]. simpl in Hp. by subst ok.
Qed.

(** C4. When the ticket is live and [pay] of the strategy [p] returns
    [False], [exit_vehicle] leaves the spots, the ledger and the counter as
    they were. A second [exit_vehicle] for the same ticket at the same
    clock value, with a strategy [q] whose [pay] returns [True], asks for
    the same fee, frees the ticket's spot, removes the ticket from the
    ledger and prints "Exit successful". *)
Theorem exit_declined_then_retry (now : float) (ticket_id : Z) (p q : PaymentStrategy)
    (s : State) (ticket : ParkingTicket.t)
    (Hlive : _tickets (self s) !! ticket_id = Some ticket)
    (Hp : (pay p (fee_due s ticket now)).2 = false)
    (Hq : (pay q (fee_due s ticket now)).2 = true) :
  let r1 := exit_vehicle now ticket_id p s in
  let r2 := exit_vehicle now ticket_id q (state r1) in
  state r1 = s /\
  head (out r1) = Some (PayCall (fee_due s ticket now)) /\
  head (out r2) = Some (PayCall (fee_due s ticket now)) /\
  last (out r2) = Some (Print ExitSuccessful) /\
  _tickets (self (state r2)) !! ticket_id = None /\
  heap (state r2) !! ParkingTicket._spot ticket =
    ParkingSpot.free <$> heap s !! ParkingTicket._spot ticket /\
  _ticket_counter (self (state r2)) = _ticket_counter (self s).
Proof.
  cbv zeta. rewrite (exit_vehicle_declined _ _ _ _ _ Hlive Hp). simpl.
  rewrite (exit_vehicle_paid _ _ _ _ _ Hlive Hq). simpl.
  split; [reflexivity|]. split; [reflexivity|]. split; [reflexivity|].
  split. { rewrite app_comm_cons. apply last_snoc. }
  split. { apply lookup_delete_eq. }
  split; [apply list_lookup_alter_eq | reflexivity].
Qed.

Lemma exit_declined_then_retry_witness :
  _tickets (self one_car) !! 1 = Some first_ticket /\
  (pay refusing (fee_due one_car first_ticket 5400)).2 = false /\
  (pay CashPayment.new (fee_due one_car first_ticket 5400)).2 = true /\
  state (exit_vehicle 5400 1 refusing one_car) = one_car.
Proof.
  split; [reflexivity|]. split; [reflexivity|]. split; [reflexivity|].
  apply (exit_declined_then_retry 5400 1 refusing CashPayment.new one_car first_ticket);
    reflexivity.
Defined.

(** C10. When the ticket is live and [pay] returns [True], [exit_vehicle]
    changes two things only: the occupancy flag of the ticket's spot
    becomes false and the entry of the ticket leaves the ledger. Every
    other spot, every other ledger entry, the counter, the list of
    registered spots and the pricing strategy are as before, and the
    identifier and class of the freed spot are kept. *)
Theorem exit_paid_frame (now : float) (ticket_id : Z) (p : PaymentStrategy)
    (s : State) (ticket : ParkingTicket.t)
    (Hlive : _tickets (self s) !! ticket_id = Some ticket)
    (Hp : (pay p (fee_due s ticket now)).2 = true) :
  let s' := state (exit_vehicle now ticket_id p s) in
  let a := ParkingTicket.get_spot ticket in
  heap s' !! a = ParkingSpot.free <$> heap s !! a /\
  (forall o, heap s !! a = Some o ->
     exists o', heap s' !! a = Some o' /\
                ParkingSpot._occupied o' = false /\
                ParkingSpot._id o' = ParkingSpot._id o /\
                ParkingSpot._type o' = ParkingSpot._type o) /\
  (forall b, b <> a -> heap s' !! b = heap s !! b) /\
  length (heap s') = length (heap s) /\
  _tickets (self s') !! ticket_id = None /\
  (forall k, k <> ticket_id -> _tickets (self s') !! k = _tickets (self s) !! k) /\
  _ticket_counter (self s') = _ticket_counter (self s) /\
  _spots (self s') = _spots (self s) /\
  _pricing_strategy (self s') = _pricing_strategy (self s).
Proof.
  cbv zeta. rewrite (exit_vehicle_paid _ _ _ _ _ Hlive Hp).
  unfold ParkingTicket.get_spot. simpl.
  split. { apply list_lookup_alter_eq. }
  split. { intros o Ho. exists (ParkingSpot.free o).
           by rewrite list_lookup_alter_eq, Ho. }
  split. { intros b Hb. by apply list_lookup_alter_ne. }
  split. { apply length_alter. }
  split. { apply lookup_delete_eq. }
  split. { intros k Hk. by apply lookup_delete_ne. }
  auto.
Qed.

Lemma exit_paid_frame_witness :
  _tickets (self one_car) !! 1 = Some first_ticket /\
  (pay CashPayment.new (fee_due one_car first_ticket 5400)).2 = true /\
  _ticket_counter (self (state (exit_vehicle 5400 1 CashPayment.new one_car))) = 2.
Proof.
  split; [reflexivity|]. split; [reflexivity|].
  apply (exit_paid_frame 5400 1 CashPayment.new one_car first_ticket); reflexivity.
Defined.

(** ** What an exit reports *)

(** C7, as stated, fails: the three outcomes cannot be read off the value
    [exit_vehicle] returns, because it is [None] on every path. No function
    of the returned value gives the outcome of every call. *)
Lemma exit_value_hides_outcome :
  ~ exists f : PyNone -> Outcome,
      forall now ticket_id p s,
        f (ret (exit_vehicle now ticket_id p s)) = exit_outcome now ticket_id p s.
Proof.
  intros [f Hf].
  pose proof (Hf 0%float 1 CashPayment.new one_car) as H1.
  pose proof (Hf 0%float 7 CashPayment.new one_car) as H2.
  vm_compute in H1, H2. destruct (f PyNone_); discriminate.
Qed.

(** C7, amended. [exit_vehicle] and [ExitGate.exit] return [None] on every
    path. The outcome is visible in the effects instead: an unknown ticket
    gives the single line "Invalid Ticket" and no call of [pay]; a live
    ticket gives a call of [pay] first, after which the ticket is out of the
    ledger and "Exit successful" is the last line when [pay] returned [True],
    and the ticket is still in the ledger and the state unchanged when [pay]
    returned [False]. *)
Theorem exit_outcome_in_effects (now : float) (ticket_id : Z) (p : PaymentStrategy) (s : State) :
  let r := exit_vehicle now ticket_id p s in
  ret r = PyNone_ /\
  (forall w, (ExitGate.exit now ticket_id w).1.1 = PyNone_) /\
  observe ticket_id r = Some (exit_outcome now ticket_id p s) /\
  match exit_outcome now ticket_id p s with
  | UnknownTicket => out r = [Print InvalidTicket] /\ state r = s
  | Success =>
      last (out r) = Some (Print ExitSuccessful) /\
      _tickets (self (state r)) !! ticket_id = None
  | PaymentDeclined => state r = s /\ is_Some (_tickets (self (state r)) !! ticket_id)
  end.
Proof.
  cbv zeta. split; [by destruct (ret _)|]. split; [reflexivity|].
  unfold exit_outcome.
  destruct (_tickets (self s) !! ticket_id) as [ticket|] eqn:Hlive.
  - destruct (pay p (fee_due s ticket now)).2 eqn:Hp.
    + rewrite (exit_vehicle_paid _ _ _ _ _ Hlive Hp). unfold observe. simpl.
      rewrite lookup_delete_eq. split; [reflexivity|]. split; [|reflexivity].
      rewrite app_comm_cons. apply last_snoc.
    + rewrite (exit_vehicle_declined _ _ _ _ _ Hlive Hp). unfold observe. simpl.
      rewrite Hlive. eauto.
  - unfold exit_vehicle, observe. rewrite Hlive. simpl. auto.
Qed.

(** ** Ticket identifiers *)

Lemma step_counter (c : call) (s : State) :
  _ticket_counter (self s) <= _ticket_counter (self (step c s)).
Proof.
  destruct c as [now v | now tid p]; simpl.
  - unfold park_vehicle. destruct (_find_spot s _); simpl; lia.
  - unfold exit_vehicle. destruct (_tickets (self s) !! tid); simpl; [|lia].
    destruct (pay p _) as [printed [|]]; simpl; lia.
Qed.

Lemma run_counter (cs : list call) (s : State) :
  _ticket_counter (self s) <= _ticket_counter (self (run cs s)).
Proof.
  revert s. induction cs as [|c cs IH]; intros s; simpl; [lia|].
  pose proof (step_counter c s). pose proof (IH (step c s)). lia.
Qed.

Lemma issued_bounds (cs : list call) (s : State) :
  Forall (fun i => _ticket_counter (self s) <= i < _ticket_counter (self (run cs s)))
         (issued cs s).
Proof.
  revert s. induction cs as [|c cs IH]; intros s; simpl; [constructor|].
  apply Forall_app. split.
  - destruct c as [now v | now tid p]; [|constructor].
    pose proof (run_counter cs (step (Park now v) s)) as Hrun.
    simpl in *. unfold park_vehicle in *.
    destruct (_find_spot s _); simpl in *; constructor; [lia | constructor].
  - eapply Forall_impl; [apply IH|]. intros i Hi. simpl in Hi.
    pose proof (step_counter c s). lia.
Qed.

(** C8. Along every sequence of [park_vehicle] and [exit_vehicle] calls,
    from every state, the identifiers handed out are strictly increasing
    in the order of issue (each is greater than all the earlier ones, so
    none is used twice, also after its ticket has left the ledger), each
    lies at or above the counter at the start and below the counter at the
    end, and no call lowers the counter: an exit leaves it as it is. *)
Theorem ticket_ids_strictly_increasing (cs : list call) (s : State) :
  StronglySorted Z.lt (issued cs s) /\
  Forall (fun i => _ticket_counter (self s) <= i < _ticket_counter (self (run cs s)))
         (issued cs s) /\
  (forall c, _ticket_counter (self s) <= _ticket_counter (self (step c s))) /\
  (forall now ticket_id p,
     _ticket_counter (self (step (Exit now ticket_id p) s)) = _ticket_counter (self s)).
Proof.
  split; [|split; [apply issued_bounds | split; [intros c; apply step_counter|]]].
  - revert s. induction cs as [|c cs IH]; intros s; [constructor|].
    pose proof (issued_bounds cs (step c s)) as Hcs. simpl.
    destruct c as [now v | now tid p]; [|apply IH].
    destruct (ret (park_vehicle now v s)) as [t|] eqn:Hret; [|apply IH].
    simpl. constructor; [apply IH|].
    eapply Forall_impl; [exact Hcs|]. simpl. intros i [Hi _].
    revert Hret Hi. unfold park_vehicle.
    destruct (_find_spot s _); simpl; [|discriminate].
    intros [= <-]. simpl. lia.
  - intros now tid p. simpl. unfold exit_vehicle.
    destruct (_tickets (self s) !! tid); [|reflexivity].
    by destruct (pay p _) as [printed [|]].
Qed.

(** ** Spots and live tickets *)

Lemma registration_keeps (regs : list addr) (s : State) :
  heap (foldl (fun s a => add_spot a s) s regs) = heap s /\
  _tickets (self (foldl (fun s a => add_spot a s) s regs)) = _tickets (self s) /\
  _ticket_counter (self (foldl (fun s a => add_spot a s) s regs)) = _ticket_counter (self s) /\
  _spots (self (foldl (fun s a => add_spot a s) s regs)) = _spots (self s) ++ regs.
Proof.
  revert s. induction regs as [|a regs IH]; intros s; simpl.
  - by rewrite app_nil_r.
  - destruct (IH (add_spot a s)) as (-> & -> & -> & ->). simpl.
    by rewrite <- app_assoc.
Qed.

Lemma initial_consistent specs regs : consistent (initial specs regs).
Proof.
  unfold initial.
  destruct (registration_keeps regs
              {| heap := (fun p => ParkingSpot.init p.1 p.2) <$> specs; self := init |})
    as (Hh & Ht & Hc & _).
  simpl in Hh, Ht, Hc.
  split; unfold references; rewrite ?Ht, ?Hh.
  - intros tid t H. by rewrite lookup_empty in H.
  - intros tid t H. by rewrite lookup_empty in H.
  - intros i j a (t & H & _). by rewrite lookup_empty in H.
  - intros a o Ho Hocc. rewrite list_lookup_fmap in Ho.
    destruct (specs !! a); simplify_eq/=.
Qed.

Lemma park_consistent now vehicle s :
  consistent s -> consistent (state (park_vehicle now vehicle s)).
Proof.
  intros [Hbelow Hocc Hapart Hticketed]. unfold park_vehicle.
  destruct (_find_spot s (Vehicle.get_type vehicle)) as [a|] eqn:E; simpl;
    [|by split].
  apply find_spot_valid in E as (o & Ho & _ & Hfree).
  assert (Hfresh : forall tid, ~ references s tid a).
  { intros tid (t & Ht & Ha). destruct (Hocc tid t Ht) as (o' & Ho' & Hb).
    rewrite Ha, Ho in Ho'. congruence. }
  split; unfold references; simpl.
  - intros tid t Ht. apply lookup_insert_Some in Ht as [[<- _]|[_ Ht]]; [lia|].
    apply Hbelow in Ht. lia.
  - intros tid t Ht. apply lookup_insert_Some in Ht as [[_ <-]|[_ Ht]]; simpl.
    + exists (ParkingSpot.occupy o). by rewrite list_lookup_alter_eq, Ho.
    + destruct (Hocc tid t Ht) as (o' & Ho' & Hb).
      destruct (decide (ParkingTicket._spot t = a)) as [Heq|Hne].
      * exfalso. apply (Hfresh tid). by exists t.
      * exists o'. by rewrite list_lookup_alter_ne.
  - intros i j b (ti & Hi & Hib) (tj & Hj & Hjb).
    apply lookup_insert_Some in Hi as [[<- <-]|[Hin Hi]];
      apply lookup_insert_Some in Hj as [[<- <-]|[Hjn Hj]]; simpl in *.
    + reflexivity.
    + exfalso. apply (Hfresh j). exists tj. by rewrite Hjb, <- Hib.
    + exfalso. apply (Hfresh i). exists ti. by rewrite Hib, <- Hjb.
    + apply (Hapart i j b); [by exists ti | by exists tj].
  - intros b o' Ho' Hb. destruct (decide (b = a)) as [->|Hne].
    + exists (_ticket_counter (self s)). eexists. by rewrite lookup_insert_eq.
    + rewrite list_lookup_alter_ne in Ho' by done.
      destruct (Hticketed b o' Ho' Hb) as (tid & t & Ht & Htb).
      exists tid, t. split; [|exact Htb].
      rewrite lookup_insert_ne; [exact Ht|]. apply Hbelow in Ht. lia.
Qed.

Lemma exit_consistent now ticket_id p s :
  consistent s -> consistent (state (exit_vehicle now ticket_id p s)).
Proof.
  intros Hs. destruct (_tickets (self s) !! ticket_id) as [ticket|] eqn:Hlive;
    [|by unfold exit_vehicle; rewrite Hlive].
  destruct (pay p (fee_due s ticket now)).2 eqn:Hp;
    [|by rewrite (exit_vehicle_declined _ _ _ _ _ Hlive Hp)].
  rewrite (exit_vehicle_paid _ _ _ _ _ Hlive Hp). simpl.
  destruct Hs as [Hbelow Hocc Hapart Hticketed].
  assert (Hother : forall tid t, tid <> ticket_id -> _tickets (self s) !! tid = Some t ->
                                 ParkingTicket._spot t <> ParkingTicket._spot ticket).
  { intros tid t Hne Ht Heq. apply Hne.
    apply (Hapart tid ticket_id (ParkingTicket._spot ticket));
      [by exists t | by exists ticket]. }
  split; unfold references; simpl.
  - intros tid t Ht. apply lookup_delete_Some in Ht as [_ Ht]. by apply Hbelow in Ht.
  - intros tid t Ht. apply lookup_delete_Some in Ht as [Hne Ht].
    destruct (Hocc tid t Ht) as (o & Ho & Hb). exists o.
    rewrite list_lookup_alter_ne; [done|]. intros Heq. by apply (Hother tid t).
  - intros i j b (ti & Hi & Hib) (tj & Hj & Hjb).
    apply lookup_delete_Some in Hi as [_ Hi]. apply lookup_delete_Some in Hj as [_ Hj].
    apply (Hapart i j b); [by exists ti | by exists tj].
  - intros b o Ho Hb.
    destruct (decide (b = ParkingTicket._spot ticket)) as [->|Hne].
    + rewrite list_lookup_alter_eq in Ho.
      destruct (heap s !! ParkingTicket._spot ticket); simplify_eq/=.
    + rewrite list_lookup_alter_ne in Ho by done.
      destruct (Hticketed b o Ho Hb) as (tid & t & Ht & Htb).
      exists tid, t. split; [|exact Htb].
      apply lookup_delete_Some. split; [|exact Ht].
      intros ->. rewrite Hlive in Ht. congruence.
Qed.

Lemma run_consistent cs s : consistent s -> consistent (run cs s).
Proof.
  revert s. induction cs as [|c cs IH]; intros s Hs; [exact Hs|].
  simpl. apply IH. destruct c; [by apply park_consistent | by apply exit_consistent].
Qed.

(** C1. In every state reached from an initial state (spots as their
    constructor leaves them, any registration list, empty ledger) by
    [park_vehicle] and [exit_vehicle] calls: a spot is occupied if and only
    if exactly one live ticket refers to it; every live ticket refers to an
    occupied spot; and two live tickets never refer to the same spot. *)
Theorem occupied_iff_one_live_ticket
    (specs : list (Z * SpotType)) (regs : list addr) (cs : list call) :
  let s := run cs (initial specs regs) in
  (forall a o, heap s !! a = Some o ->
     (ParkingSpot._occupied o = true <->
      exists tid, references s tid a /\ forall tid', references s tid' a -> tid' = tid)) /\
  (forall tid t, _tickets (self s) !! tid = Some t ->
     exists o, heap s !! ParkingTicket._spot t = Some o /\ ParkingSpot._occupied o = true) /\
  (forall i j ti tj,
     _tickets (self s) !! i = Some ti -> _tickets (self s) !! j = Some tj ->
     ParkingTicket._spot ti = ParkingTicket._spot tj -> i = j).
Proof.
  intros s.
  destruct (run_consistent cs _ (initial_consistent specs regs))
    as [Hbelow Hocc Hapart Hticketed].
  fold s in Hbelow, Hocc, Hapart, Hticketed.
  split; [|split].
  - intros a o Ho. split.
    + intros Hb. destruct (Hticketed a o Ho Hb) as (tid & Href).
      exists tid. split; [exact Href|]. intros tid' Href'. by apply (Hapart tid' tid a).
    + intros (tid & (t & Ht & Hta) & _).
      destruct (Hocc tid t Ht) as (o' & Ho' & Hb). congruence.
  - exact Hocc.
  - intros i j ti tj Hi Hj Heq.
    apply (Hapart i j (ParkingTicket._spot tj)); [by exists ti | by exists tj].
Qed.

(** ** The three-spot scenario *)

(** C9. With the spots Compact#1, Regular#2 and Large#3 registered in that
    order: the first car gets ticket 1 on spot #2, which becomes occupied;
    a second car arriving before the first has left is told "Parking Full",
    gets no ticket and changes nothing, so spots #1 and #3 stay free; the
    exit of the first car with a payment that succeeds empties the ledger
    and frees spot #2; the second car then gets ticket 2 on spot #2. *)
Theorem three_spot_scenario (t1 t2 t3 t4 : float) (plate1 plate2 : string) :
  let car1 := Vehicle.init plate1 CAR in
  let car2 := Vehicle.init plate2 CAR in
  let free_lot := [ParkingSpot.init 1 COMPACT; ParkingSpot.init 2 REGULAR;
                   ParkingSpot.init 3 LARGE] in
  let taken_lot := [ParkingSpot.init 1 COMPACT; ParkingSpot.occupy (ParkingSpot.init 2 REGULAR);
                    ParkingSpot.init 3 LARGE] in
  let '(r1, w1, o1) := EntranceGate.enter t1 car1 bootstrap in
  let '(r2, w2, o2) := EntranceGate.enter t2 car2 w1 in
  let '(r3, w3, o3) := ExitGate.exit t3 1 w2 in
  let '(r4, w4, o4) := EntranceGate.enter t4 car2 w3 in
  objects bootstrap = free_lot /\
  r1 = Some (ParkingTicket.init t1 1 car1 1%nat) /\
  objects w1 = taken_lot /\
  r2 = None /\ o2 = [Print ParkingFull] /\ w2 = w1 /\
  last o3 = Some (Print ExitSuccessful) /\
  _tickets <$> _instance w3 = Some ∅ /\
  objects w3 = free_lot /\
  r4 = Some (ParkingTicket.init t4 2 car2 1%nat) /\
  objects w4 = taken_lot /\
  (_instance w4 ≫= fun lot => _tickets lot !! 2) = r4 /\
  (_instance w4 ≫= fun lot => _tickets lot !! 1) = None.
Proof.
  vm_compute. repeat split.
Qed.


(** * Further properties *)

(** ** The singleton *)

(** X1. [get_instance] never raises. It returns the instance the class
    holds, or a new lot which it stores; the spot objects are untouched.
    Every later call returns that same instance and changes nothing, and
    from then on a direct [ParkingLot()] raises "Use get_instance()". *)
Theorem get_instance_singleton (w : World) :
  exists lot w',
    get_instance_call w = inr (lot, w') /\
    lot = self (get_instance w) /\
    w' = commit (get_instance w) /\
    objects w' = objects w /\
    _instance w' = Some lot /\
    get_instance_call w' = inr (lot, w') /\
    construct w' = inl "Use get_instance()".
Proof.
  destruct w as [objs [lot|]]; unfold get_instance_call, construct; simpl.
  - exists lot. eexists. repeat split.
  - exists init. eexists. repeat split.
Qed.

(** ** Registering spots *)

Lemma scan_app h want l1 l2 :
  scan h want (l1 ++ l2) =
    match scan h want l1 with Some a => Some a | None => scan h want l2 end.
Proof.
  induction l1 as [|b l1 IH]; simpl; [reflexivity|].
  by destruct (free_match h want b).
Qed.

(** X2. [add_spot] appends: spots registered earlier keep their priority.
    An arrival that had a spot before the call gets the same spot after
    it; one that had none gets the new spot exactly when that spot is free
    and of its class. The spot objects, the ledger and the counter are not
    touched. *)
Theorem add_spot_keeps_priority (a : addr) (s : State) (vehicle_type : VehicleType) :
  _find_spot (add_spot a s) vehicle_type =
    match _find_spot s vehicle_type with
    | Some b => Some b
    | None => if free_match (heap s) (mapping vehicle_type) a then Some a else None
    end /\
  _spots (self (add_spot a s)) = _spots (self s) ++ [a] /\
  heap (add_spot a s) = heap s /\
  _tickets (self (add_spot a s)) = _tickets (self s) /\
  _ticket_counter (self (add_spot a s)) = _ticket_counter (self s).
Proof.
  unfold _find_spot. simpl. rewrite scan_app. simpl.
  split; [|by repeat split].
  destruct (scan (heap s) (mapping vehicle_type) (_spots (self s))); [reflexivity|].
  by destruct (free_match (heap s) (mapping vehicle_type) a).
Qed.

(** ** More on the hourly fee *)

(** X3. The hourly fee is never below the one-hour amount 50, whatever the
    two clock values are, also when the exit time is before the entry
    time: it is the int 50, or the float product of 50 with hours above 1,
    and that product, rounded as binary64 multiplication rounds, is at
    least 50. *)
Theorem hourly_fee_never_below_minimum (e x : float) :
  at_least_50 (HourlyPricing.calculate_fee e x) /\
  (HourlyPricing.calculate_fee e x = PyInt 50 \/
   exists hours,
     (1 <? hours)%float = true /\
     (50 <=? hours * 50)%float = true /\
     HourlyPricing.calculate_fee e x = PyFloat (hours * 50)) /\
  HourlyPricing.calculate_fee 5400 0 = PyInt 50.
Proof.
  split; [apply hourly_fee_at_least|]. split; [|reflexivity].
  rewrite hourly_fee_cases.
  destruct (1 <? (x - e) / 3600)%float eqn:Hh; [right | by left].
  exists ((x - e) / 3600)%float. split; [done|]. split; [|done].
  by apply mul_50_at_least_50.
Qed.

(** ** Entry followed by exit *)

Lemma free_after_occupy (h : list ParkingSpot.t) (a : addr) (o : ParkingSpot.t) :
  h !! a = Some o -> ParkingSpot._occupied o = false ->
  alter ParkingSpot.free a (alter ParkingSpot.occupy a h) = h.
Proof.
  intros Ho Hfree. apply list_eq. intros b.
  destruct (decide (a = b)) as [<-|Hne].
  - rewrite !list_lookup_alter_eq, Ho. simpl. f_equal.
    destruct o as [i ty occ]. simpl in Hfree. by subst occ.
  - by rewrite !list_lookup_alter_ne.
Qed.

(** X5. Parking a vehicle and then letting it out with a payment that
    succeeds brings the lot back to where it was, except for the counter,
    which stays one higher: the spot objects, the ledger, the registration
    list and the pricing strategy are those of the start. This needs a
    spot to be found and nothing to be filed under the current counter. *)
Theorem park_then_exit_restores (t_enter t_exit : float) (vehicle : Vehicle.t)
    (p : PaymentStrategy) (s : State) (a : addr)
    (Hfound : _find_spot s (Vehicle.get_type vehicle) = Some a)
    (Hfresh : _tickets (self s) !! _ticket_counter (self s) = None)
    (Hpay : (pay p (calculate_fee (_pricing_strategy (self s)) t_enter t_exit)).2 = true) :
  let parked := state (park_vehicle t_enter vehicle s) in
  let left := state (exit_vehicle t_exit (_ticket_counter (self s)) p parked) in
  heap left = heap s /\
  _tickets (self left) = _tickets (self s) /\
  _spots (self left) = _spots (self s) /\
  _pricing_strategy (self left) = _pricing_strategy (self s) /\
  _ticket_counter (self left) = _ticket_counter (self s) + 1.
Proof.
  cbv zeta. unfold park_vehicle. rewrite Hfound. cbv zeta.
  apply find_spot_valid in Hfound as (o & Ho & _ & Hfree).
  erewrite exit_vehicle_paid; [| simpl; apply lookup_insert_eq | exact Hpay].
  simpl. split; [by eapply free_after_occupy|].
  split; [by apply delete_insert_id | auto].
Qed.

Lemma park_then_exit_restores_witness :
  _find_spot (initial [(2, REGULAR)] [0%nat]) CAR = Some 0%nat /\
  heap (state (exit_vehicle 5400 1 CashPayment.new one_car)) =
    heap (initial [(2, REGULAR)] [0%nat]).
Proof.
  split; [reflexivity|].
  apply (park_then_exit_restores 0 5400 (Vehicle.init "KA01AB1234" CAR) CashPayment.new
           (initial [(2, REGULAR)] [0%nat]) 0%nat); reflexivity.
Defined.

(** X6. A ticket is paid for at most once. After an exit that succeeded,
    every further exit with the same identifier, at any time and with any
    payment strategy, prints "Invalid Ticket", does not call [pay] and
    changes nothing. *)
Theorem exit_twice_is_invalid (now : float) (ticket_id : Z) (p : PaymentStrategy)
    (s : State) (ticket : ParkingTicket.t)
    (Hlive : _tickets (self s) !! ticket_id = Some ticket)
    (Hp : (pay p (fee_due s ticket now)).2 = true) :
  let gone := state (exit_vehicle now ticket_id p s) in
  forall now' q,
    out (exit_vehicle now' ticket_id q gone) = [Print InvalidTicket] /\
    state (exit_vehicle now' ticket_id q gone) = gone.
Proof.
  cbv zeta. rewrite (exit_vehicle_paid _ _ _ _ _ Hlive Hp). intros now' q.
  unfold exit_vehicle. simpl. by rewrite lookup_delete_eq.
Qed.

Lemma exit_twice_is_invalid_witness :
  _tickets (self one_car) !! 1 = Some first_ticket /\
  (pay CashPayment.new (fee_due one_car first_ticket 5400)).2 = true /\
  out (exit_vehicle 9000 1 CashPayment.new
         (state (exit_vehicle 5400 1 CashPayment.new one_car))) = [Print InvalidTicket].
Proof.
  split; [reflexivity|]. split; [reflexivity|].
  apply (exit_twice_is_invalid 5400 1 CashPayment.new one_car first_ticket); reflexivity.
Defined.

(** ** The ledger below the counter *)

Lemma step_ledger_shrinks (c : call) (s : State) (tid : Z) (t : ParkingTicket.t) :
  tid < _ticket_counter (self s) ->
  _tickets (self (step c s)) !! tid = Some t ->
  _tickets (self s) !! tid = Some t.
Proof.
  intros Hlt. destruct c as [now v | now k p]; simpl.
  - unfold park_vehicle. destruct (_find_spot s _); simpl; [|done].
    rewrite lookup_insert_ne by lia. done.
  - unfold exit_vehicle. destruct (_tickets (self s) !! k); [|done].
    destruct (pay p _) as [printed [|]]; simpl; [|done].
    intros H. by apply lookup_delete_Some in H as [_ H].
Qed.

(** X7. Below the counter the ledger only loses entries. Whatever calls
    follow, a ticket found later under an identifier already given out is
    the very record that was filed there, with the same vehicle, spot and
    entry time; and an identifier below the counter that is not in the
    ledger, because its ticket was retired, never comes back. *)
Theorem retired_tickets_stay_retired (cs : list call) (s : State) (tid : Z)
    (Hissued : tid < _ticket_counter (self s)) :
  (forall t, _tickets (self (run cs s)) !! tid = Some t ->
             _tickets (self s) !! tid = Some t) /\
  (_tickets (self s) !! tid = None -> _tickets (self (run cs s)) !! tid = None).
Proof.
  assert (Hkeep : forall t, _tickets (self (run cs s)) !! tid = Some t ->
                            _tickets (self s) !! tid = Some t).
  { revert s Hissued. induction cs as [|c cs IH]; intros s Hlt t Ht; [exact Ht|].
    simpl in Ht. apply (step_ledger_shrinks c); [exact Hlt|].
    apply IH; [|exact Ht]. pose proof (step_counter c s). lia. }
  split; [exact Hkeep|]. intros Hnone.
  destruct (_tickets (self (run cs s)) !! tid) as [t|]; [|reflexivity].
  specialize (Hkeep t eq_refl). congruence.
Qed.

Lemma retired_tickets_stay_retired_witness :
  1 < _ticket_counter (self (state (exit_vehicle 5400 1 CashPayment.new one_car))) /\
  _tickets (self (run [Park 6000 (Vehicle.init "KA02CD5678" CAR)]
                      (state (exit_vehicle 5400 1 CashPayment.new one_car)))) !! 1 = None.
Proof.
  split; [reflexivity|].
  apply (retired_tickets_stay_retired [Park 6000 (Vehicle.init "KA02CD5678" CAR)]
           (state (exit_vehicle 5400 1 CashPayment.new one_car)) 1); reflexivity.
Defined.

(** ** What no call changes *)

Lemma alter_keeps_identity (f : ParkingSpot.t -> ParkingSpot.t)
    (h : list ParkingSpot.t) (a b : addr) :
  (forall o, identity (f o) = identity o) ->
  identity <$> alter f a h !! b = identity <$> h !! b.
Proof.
  intros Hf. destruct (decide (a = b)) as [<-|Hne].
  - rewrite list_lookup_alter_eq. destruct (h !! a); simpl; [|done]. by rewrite Hf.
  - by rewrite list_lookup_alter_ne.
Qed.

Lemma step_frame (c : call) (s : State) :
  _spots (self (step c s)) = _spots (self s) /\
  _pricing_strategy (self (step c s)) = _pricing_strategy (self s) /\
  length (heap (step c s)) = length (heap s) /\
  forall a, identity <$> heap (step c s) !! a = identity <$> heap s !! a.
Proof.
  destruct c as [now v | now k p]; simpl.
  - unfold park_vehicle. destruct (_find_spot s _); simpl; [|done].
    rewrite length_alter. repeat split. intros b. by apply alter_keeps_identity.
  - unfold exit_vehicle. destruct (_tickets (self s) !! k); [|done].
    destruct (pay p _) as [printed [|]]; simpl; [|done].
    rewrite length_alter. repeat split. intros b. by apply alter_keeps_identity.
Qed.

Lemma run_heap_length (cs : list call) (s : State) :
  length (heap (run cs s)) = length (heap s).
Proof.
  revert s. induction cs as [|c cs IH]; intros s; simpl; [done|].
  rewrite IH. apply step_frame.
Qed.

Lemma run_pricing (cs : list call) (s : State) :
  _pricing_strategy (self (run cs s)) = _pricing_strategy (self s).
Proof.
  revert s. induction cs as [|c cs IH]; intros s; simpl; [done|].
  rewrite IH. apply step_frame.
Qed.

(** X8. No sequence of [park_vehicle] and [exit_vehicle] calls, from any
    state, changes the registration list, the pricing strategy, the number
    of spot objects, or the identifier and the class of any spot: the
    occupancy flag is the only part of a spot that moves. *)
Theorem calls_keep_spots_and_pricing (cs : list call) (s : State) :
  _spots (self (run cs s)) = _spots (self s) /\
  _pricing_strategy (self (run cs s)) = _pricing_strategy (self s) /\
  length (heap (run cs s)) = length (heap s) /\
  forall a, identity <$> heap (run cs s) !! a = identity <$> heap s !! a.
Proof.
  revert s. induction cs as [|c cs IH]; intros s; simpl; [done|].
  destruct (IH (step c s)) as (-> & -> & -> & Hid).
  destruct (step_frame c s) as (-> & -> & -> & Hid').
  repeat split. intros a. by rewrite Hid, Hid'.
Qed.

(** ** Counting *)

Lemma occupied_count_occupy (h : list ParkingSpot.t) (a : addr) o :
  h !! a = Some o -> ParkingSpot._occupied o = false ->
  occupied_count (alter ParkingSpot.occupy a h) = S (occupied_count h).
Proof.
  unfold occupied_count. revert a. induction h as [|x h IH]; intros [|a] Ho Hfree;
    simpl in Ho; try discriminate.
  - injection Ho as ->.
    change (alter ParkingSpot.occupy 0%nat (o :: h)) with (ParkingSpot.occupy o :: h).
    rewrite filter_cons_True by done. rewrite (filter_cons_False _ o); [done|].
    by rewrite Hfree.
  - change (alter ParkingSpot.occupy (S a) (x :: h))
      with (x :: alter ParkingSpot.occupy a h).
    rewrite !filter_cons.
    destruct (decide (ParkingSpot._occupied x = true)); simpl;
      by rewrite (IH a Ho Hfree).
Qed.

Lemma occupied_count_free (h : list ParkingSpot.t) (a : addr) o :
  h !! a = Some o -> ParkingSpot._occupied o = true ->
  S (occupied_count (alter ParkingSpot.free a h)) = occupied_count h.
Proof.
  unfold occupied_count. revert a. induction h as [|x h IH]; intros [|a] Ho Hocc;
    simpl in Ho; try discriminate.
  - injection Ho as ->.
    change (alter ParkingSpot.free 0%nat (o :: h)) with (ParkingSpot.free o :: h).
    rewrite filter_cons_False by done. by rewrite (filter_cons_True _ o).
  - change (alter ParkingSpot.free (S a) (x :: h))
      with (x :: alter ParkingSpot.free a h).
    rewrite !filter_cons.
    destruct (decide (ParkingSpot._occupied x = true)); simpl;
      by rewrite <- (IH a Ho Hocc).
Qed.

Lemma occupied_count_fresh (specs : list (Z * SpotType)) :
  occupied_count ((fun p => ParkingSpot.init p.1 p.2) <$> specs) = 0%nat.
Proof.
  unfold occupied_count. induction specs as [|x specs IH]; [done|].
  rewrite fmap_cons, filter_cons_False; done.
Qed.

Lemma step_counted (c : call) (s : State) :
  consistent s ->
  size (_tickets (self s)) = occupied_count (heap s) ->
  size (_tickets (self (step c s))) = occupied_count (heap (step c s)).
Proof.
  intros [Hbelow Hocc _ _] Hsize. destruct c as [now v | now k p]; simpl.
  - unfold park_vehicle.
    destruct (_find_spot s (Vehicle.get_type v)) as [a|] eqn:E; simpl; [|done].
    apply find_spot_valid in E as (o & Ho & _ & Hfree).
    rewrite (occupied_count_occupy _ _ _ Ho Hfree), <- Hsize.
    apply map_size_insert_None.
    destruct (_tickets (self s) !! _ticket_counter (self s)) as [t|] eqn:Ht; [|done].
    apply Hbelow in Ht. lia.
  - destruct (_tickets (self s) !! k) as [t|] eqn:Hlive;
      [|by unfold exit_vehicle; rewrite Hlive].
    destruct (pay p (fee_due s t now)).2 eqn:Hp;
      [|by rewrite (exit_vehicle_declined _ _ _ _ _ Hlive Hp)].
    rewrite (exit_vehicle_paid _ _ _ _ _ Hlive Hp). simpl.
    destruct (Hocc k t Hlive) as (o & Ho & Hb).
    pose proof (occupied_count_free _ _ _ Ho Hb) as Hfree.
    pose proof (map_size_delete_Some k (_tickets (self s)) (mk_is_Some _ _ Hlive)).
    lia.
Qed.

(** X9. In every state reached from an initial state, the number of live
    tickets equals the number of occupied spots, and so never exceeds the
    number of spot objects the lot was built with. *)
Theorem live_tickets_count_occupied
    (specs : list (Z * SpotType)) (regs : list addr) (cs : list call) :
  let s := run cs (initial specs regs) in
  size (_tickets (self s)) = occupied_count (heap s) /\
  (size (_tickets (self s)) <= length specs)%nat.
Proof.
  intros s.
  assert (Hcount : size (_tickets (self s)) = occupied_count (heap s)).
  { subst s. pose proof (initial_consistent specs regs) as Hinv.
    assert (Hsize : size (_tickets (self (initial specs regs))) =
                    occupied_count (heap (initial specs regs))).
    { unfold initial. destruct (registration_keeps regs
        {| heap := (fun p => ParkingSpot.init p.1 p.2) <$> specs; self := init |})
        as (-> & -> & _). simpl. by rewrite map_size_empty, occupied_count_fresh. }
    revert Hinv Hsize. generalize (initial specs regs).
    induction cs as [|c cs IH]; intros s Hinv Hsize; [exact Hsize|].
    simpl. apply IH.
    - destruct c; [by apply park_consistent | by apply exit_consistent].
    - by apply step_counted. }
  split; [exact Hcount|]. rewrite Hcount.
  etransitivity; [apply length_filter|].
  subst s. rewrite run_heap_length.
  unfold initial. destruct (registration_keeps regs
    {| heap := (fun p => ParkingSpot.init p.1 p.2) <$> specs; self := init |}) as (-> & _).
  simpl. by rewrite length_fmap.
Qed.

(** ** What a live ticket says *)

Lemma alter_keeps_type (f : ParkingSpot.t -> ParkingSpot.t)
    (h : list ParkingSpot.t) (a b : addr) (o : ParkingSpot.t) :
  (forall x, ParkingSpot._type (f x) = ParkingSpot._type x) ->
  h !! b = Some o ->
  exists o', alter f a h !! b = Some o' /\ ParkingSpot._type o' = ParkingSpot._type o.
Proof.
  intros Hf Ho. destruct (decide (a = b)) as [->|Hne].
  - exists (f o). by rewrite list_lookup_alter_eq, Ho.
  - exists o. by rewrite list_lookup_alter_ne.
Qed.

Lemma scan_registered h want spots a : scan h want spots = Some a -> a ∈ spots.
Proof.
  intros H. apply scan_some in H as (i & Hi & _). by eapply list_elem_of_lookup_2.
Qed.

Lemma step_well_filed (c : call) (s : State) : well_filed s -> well_filed (step c s).
Proof.
  intros [Hid Hreg Hclass]. destruct c as [now v | now k p]; simpl.
  - unfold park_vehicle.
    destruct (_find_spot s (Vehicle.get_type v)) as [a|] eqn:E; simpl; [|by split].
    pose proof (scan_registered _ _ _ _ E) as Ha.
    apply find_spot_valid in E as (o & Ho & Hty & _).
    split; simpl; intros tid t Ht;
      apply lookup_insert_Some in Ht as [[<- <-]|[_ Ht]]; simpl; eauto.
    + exists (ParkingSpot.occupy o). by rewrite list_lookup_alter_eq, Ho.
    + destruct (Hclass tid t Ht) as (o' & Ho' & Hty').
      destruct (alter_keeps_type ParkingSpot.occupy (heap s) a _ o' (fun _ => eq_refl) Ho')
        as (o'' & Ho'' & Hty'').
      exists o''. split; [exact Ho'' | congruence].
  - unfold exit_vehicle. destruct (_tickets (self s) !! k) as [t0|]; [|by split].
    destruct (pay p _) as [printed [|]]; simpl; [|by split].
    split; simpl; intros tid t Ht; apply lookup_delete_Some in Ht as [_ Ht]; eauto.
    destruct (Hclass tid t Ht) as (o' & Ho' & Hty').
    destruct (alter_keeps_type ParkingSpot.free (heap s) (ParkingTicket.get_spot t0) _ o'
                (fun _ => eq_refl) Ho') as (o'' & Ho'' & Hty'').
    exists o''. split; [exact Ho'' | congruence].
Qed.

(** X10. In every state reached from an initial state, every live ticket
    is filed under its own identifier, refers to a spot of the registration
    list, and that spot has the class the mapping gives the ticket's
    vehicle: a bike is never on a Regular or Large spot, a car never on a
    Compact or Large one, a truck never on a Compact or Regular one. *)
Theorem live_tickets_match_class
    (specs : list (Z * SpotType)) (regs : list addr) (cs : list call) :
  let s := run cs (initial specs regs) in
  forall tid t, _tickets (self s) !! tid = Some t ->
    ParkingTicket.get_ticket_id t = tid /\
    ParkingTicket.get_spot t ∈ _spots (self s) /\
    exists o, heap s !! ParkingTicket.get_spot t = Some o /\
              ParkingSpot.get_type o =
                mapping (Vehicle.get_type (ParkingTicket._vehicle t)).
Proof.
  intros s.
  assert (Hs : well_filed s).
  { subst s. assert (H0 : well_filed (initial specs regs)).
    { unfold initial. destruct (registration_keeps regs
        {| heap := (fun p => ParkingSpot.init p.1 p.2) <$> specs; self := init |})
        as (_ & Ht & _). simpl in Ht.
      split; intros tid t H; rewrite Ht in H; by rewrite lookup_empty in H. }
    revert H0. generalize (initial specs regs).
    induction cs as [|c cs IH]; intros s Hs; [exact Hs|].
    simpl. apply IH. by apply step_well_filed. }
  destruct Hs as [Hid Hreg Hclass]. intros tid t Ht.
  split; [by apply Hid|]. split; [by eapply Hreg | by eapply Hclass].
Qed.

Lemma live_tickets_match_class_witness :
  _tickets (self (run [Park 0 (Vehicle.init "KA01AB1234" CAR)]
                      (initial [(2, REGULAR)] [0%nat]))) !! 1 = Some first_ticket /\
  ParkingTicket.get_ticket_id first_ticket = 1 /\
  ParkingTicket.get_spot first_ticket ∈ [0%nat].
Proof.
  split; [reflexivity|].
  destruct (live_tickets_match_class [(2, REGULAR)] [0%nat]
              [Park 0 (Vehicle.init "KA01AB1234" CAR)] 1 first_ticket eq_refl)
    as (Hid & Hreg & _).
  split; [exact Hid | exact Hreg].
Defined.

(** ** The amount asked at the exit *)

Lemma registration_pricing (regs : list addr) (s : State) :
  _pricing_strategy (self (foldl (fun s a => add_spot a s) s regs)) =
  _pricing_strategy (self s).
Proof.
  revert s. induction regs as [|a regs IH]; intros s; simpl; [done|]. by rewrite IH.
Qed.

Lemma exit_pay_call now ticket_id p s amount :
  PayCall amount ∈ out (exit_vehicle now ticket_id p s) ->
  exists ticket, _tickets (self s) !! ticket_id = Some ticket /\
                 amount = fee_due s ticket now.
Proof.
  unfold exit_vehicle, fee_due.
  destruct (_tickets (self s) !! ticket_id) as [ticket|]; simpl.
  - intros Hin. exists ticket. split; [done|].
    assert (Hprints : forall l, PayCall amount ∉ map Print l).
    { intros l Hl. apply list_elem_of_fmap in Hl as (m & Hm & _). discriminate. }
    destruct (pay p _) as [printed [|]]; simpl in Hin.
    + apply elem_of_cons in Hin as [[= ->]|Hin]; [done|].
      apply elem_of_app in Hin as [Hin|Hin]; [by apply Hprints in Hin|].
      apply list_elem_of_singleton in Hin. discriminate.
    + apply elem_of_cons in Hin as [[= ->]|Hin]; [done|]. by apply Hprints in Hin.
  - intros Hin. apply list_elem_of_singleton in Hin. discriminate.
Qed.

(** X11. A lot made by [ParkingLot()] keeps the hourly rule through every
    call: whatever amount [exit_vehicle] passes to [pay], it does so for a
    live ticket, the amount is the hourly fee from that ticket's entry
    time to the clock value read at the exit, and it is never below 50. *)
Theorem lot_never_asks_less_than_minimum
    (specs : list (Z * SpotType)) (regs : list addr) (cs : list call)
    (now : float) (ticket_id : Z) (p : PaymentStrategy) (amount : number)
    (Hasked : PayCall amount ∈
                out (exit_vehicle now ticket_id p (run cs (initial specs regs)))) :
  (exists ticket,
     _tickets (self (run cs (initial specs regs))) !! ticket_id = Some ticket /\
     amount = HourlyPricing.calculate_fee (ParkingTicket.get_entry_time ticket) now) /\
  at_least_50 amount.
Proof.
  apply exit_pay_call in Hasked as (ticket & Hlive & ->).
  unfold fee_due. rewrite run_pricing. unfold initial. rewrite registration_pricing.
  simpl. split; [by exists ticket | apply hourly_fee_at_least].
Qed.

Lemma lot_never_asks_less_than_minimum_witness :
  PayCall (PyFloat 75) ∈
    out (exit_vehicle 5400 1 refusing
           (run [Park 0 (Vehicle.init "KA01AB1234" CAR)] (initial [(2, REGULAR)] [0%nat]))) /\
  at_least_50 (PyFloat 75).
Proof.
  assert (H : PayCall (PyFloat 75) ∈
    out (exit_vehicle 5400 1 refusing
           (run [Park 0 (Vehicle.init "KA01AB1234" CAR)] (initial [(2, REGULAR)] [0%nat])))).
  { vm_compute. left. }
  split; [exact H|].
  apply (lot_never_asks_less_than_minimum [(2, REGULAR)] [0%nat]
           [Park 0 (Vehicle.init "KA01AB1234" CAR)] 5400 1 refusing _ H).
Defined.

(** ** A lot that grows while in use *)

Lemma consistent_occupied_iff (s : State) :
  consistent s ->
  forall a o, heap s !! a = Some o ->
    (ParkingSpot._occupied o = true <->
     exists tid, references s tid a /\ forall tid', references s tid' a -> tid' = tid).
Proof.
  intros [_ Hocc Hapart Hticketed] a o Ho. split.
  - intros Hb. destruct (Hticketed a o Ho Hb) as (tid & Href).
    exists tid. split; [exact Href|]. intros tid' Href'. by apply (Hapart tid' tid a).
  - intros (tid & (t & Ht & Hta) & _).
    destruct (Hocc tid t Ht) as (o' & Ho' & Hb). congruence.
Qed.

Lemma register_consistent spot_id spot_type s :
  consistent s -> consistent (register spot_id spot_type s).
Proof.
  intros [Hbelow Hocc Hapart Hticketed]. split; unfold references; simpl.
  - exact Hbelow.
  - intros tid t Ht. destruct (Hocc tid t Ht) as (o & Ho & Hb).
    exists o. split; [by apply lookup_app_l_Some | exact Hb].
  - exact Hapart.
  - intros a o Ho Hb. apply lookup_snoc_Some in Ho as [[_ Ho]|[_ <-]]; [|done].
    by apply (Hticketed a o).
Qed.

Lemma empty_lot_consistent : consistent empty_lot.
Proof.
  split; unfold references; simpl.
  - intros tid t H. by rewrite lookup_empty in H.
  - intros tid t H. by rewrite lookup_empty in H.
  - intros i j a (t & H & _). by rewrite lookup_empty in H.
  - intros a o H. by rewrite lookup_nil in H.
Qed.

(** X12. Spots may be added while vehicles are parked. Starting from a
    new lot without spots, any interleaving of
    [add_spot(ParkingSpot(id, class))], [park_vehicle] and [exit_vehicle]
    keeps the lot sound: a spot is occupied if and only if exactly one live
    ticket refers to it, every live ticket has an identifier below the
    counter and refers to an occupied spot, and there is one spot object
    per registration. *)
Theorem growing_lot_stays_sound (xs : list action) :
  let s := perform xs empty_lot in
  (forall a o, heap s !! a = Some o ->
     (ParkingSpot._occupied o = true <->
      exists tid, references s tid a /\ forall tid', references s tid' a -> tid' = tid)) /\
  (forall tid t, _tickets (self s) !! tid = Some t ->
     tid < _ticket_counter (self s) /\
     exists o, heap s !! ParkingTicket._spot t = Some o /\ ParkingSpot._occupied o = true) /\
  _spots (self s) = seq 0 (length (heap s)).
Proof.
  intros s.
  assert (Hs : consistent s /\ _spots (self s) = seq 0 (length (heap s))).
  { subst s. assert (H0 : consistent empty_lot /\
                          _spots (self empty_lot) = seq 0 (length (heap empty_lot)))
      by (split; [apply empty_lot_consistent | reflexivity]).
    revert H0. generalize empty_lot.
    induction xs as [|x xs IH]; intros s [Hs Hspots]; [by split|].
    simpl. apply IH. destruct x as [c | spot_id spot_type]; simpl.
    - split.
      + destruct c; [by apply park_consistent | by apply exit_consistent].
      + destruct (step_frame c s) as (-> & _ & -> & _). exact Hspots.
    - split; [by apply register_consistent|]. simpl.
      rewrite Hspots, length_app. simpl. by rewrite Nat.add_1_r, seq_S. }
  destruct Hs as [Hs Hspots]. split; [by apply consistent_occupied_iff|].
  split; [|exact Hspots]. intros tid t Ht. destruct Hs as [Hbelow Hocc _ _]. eauto.
Qed.

(** ** The exit gate and the script *)

(** X13. [ExitGate.exit] cannot be declined: it always pays with
    [CashPayment], whose [pay] returns [True]. For a live ticket of the
    stored instance it returns [None], asks for the fee, prints the receipt
    and "Exit successful", and removes the ticket; the occupancy flag of
    the ticket's spot is false afterwards, with its identifier and class
    kept; no other spot changes, and the registration list, the counter
    and the pricing strategy stay as they were. *)
Theorem exit_gate_never_declines (now : float) (ticket_id : Z) (w : World)
    (lot : ParkingLot.t) (ticket : ParkingTicket.t)
    (Hinstance : _instance w = Some lot)
    (Hlive : _tickets lot !! ticket_id = Some ticket) :
  let fee := calculate_fee (_pricing_strategy lot)
               (ParkingTicket.get_entry_time ticket) now in
  let a := ParkingTicket.get_spot ticket in
  let w' := (ExitGate.exit now ticket_id w).1.2 in
  ExitGate.exit now ticket_id w =
    (PyNone_,
     {| objects := alter ParkingSpot.free a (objects w);
        _instance := Some {| _spots := _spots lot;
                             _tickets := delete ticket_id (_tickets lot);
                             _ticket_counter := _ticket_counter lot;
                             _pricing_strategy := _pricing_strategy lot |} |},
     [PayCall fee; Print (CashReceived fee); Print ExitSuccessful]) /\
  (_instance w' ≫= fun lot' => _tickets lot' !! ticket_id) = None /\
  (forall o, objects w !! a = Some o ->
     exists o', objects w' !! a = Some o' /\
                ParkingSpot._occupied o' = false /\
                ParkingSpot.is_available o' = true /\
                identity o' = identity o) /\
  (forall b, b <> a -> objects w' !! b = objects w !! b) /\
  exit_outcome now ticket_id CashPayment.new (get_instance w) = Success.
Proof.
  cbv zeta.
  assert (Hexit : ExitGate.exit now ticket_id w =
    (PyNone_,
     {| objects := alter ParkingSpot.free (ParkingTicket.get_spot ticket) (objects w);
        _instance := Some {| _spots := _spots lot;
                             _tickets := delete ticket_id (_tickets lot);
                             _ticket_counter := _ticket_counter lot;
                             _pricing_strategy := _pricing_strategy lot |} |},
     [PayCall (calculate_fee (_pricing_strategy lot)
                 (ParkingTicket.get_entry_time ticket) now);
      Print (CashReceived (calculate_fee (_pricing_strategy lot)
                             (ParkingTicket.get_entry_time ticket) now));
      Print ExitSuccessful])).
  { unfold ExitGate.exit, get_instance. rewrite Hinstance.
    erewrite exit_vehicle_paid; [reflexivity | exact Hlive | reflexivity]. }
  rewrite Hexit. simpl. split; [reflexivity|].
  split. { apply lookup_delete_eq. }
  split. { intros o Ho. exists (ParkingSpot.free o).
           by rewrite list_lookup_alter_eq, Ho. }
  split. { intros b Hb. by apply list_lookup_alter_ne. }
  unfold exit_outcome, get_instance. rewrite Hinstance. simpl. by rewrite Hlive.
Qed.

Lemma exit_gate_never_declines_witness :
  _instance (commit one_car) = Some (self one_car) /\
  _tickets (self one_car) !! 1 = Some first_ticket /\
  (ExitGate.exit 5400 1 (commit one_car)).2 =
    [PayCall (PyFloat 75); Print (CashReceived (PyFloat 75)); Print ExitSuccessful] /\
  objects (ExitGate.exit 5400 1 (commit one_car)).1.2 !! 0%nat =
    Some (ParkingSpot.init 2 REGULAR).
Proof.
  split; [reflexivity|]. split; [reflexivity|].
  destruct (exit_gate_never_declines 5400 1 (commit one_car) (self one_car) first_ticket
              eq_refl eq_refl) as (Hexit & _ & Hfree & _).
  split; [by rewrite Hexit|].
  destruct (Hfree (ParkingSpot.occupy (ParkingSpot.init 2 REGULAR)) eq_refl)
    as (o' & Ho' & Hocc & _ & Hid).
  change (ParkingTicket.get_spot first_ticket) with 0%nat in Ho'.
  rewrite Ho'. f_equal. destruct o' as [i ty occ]. simpl in Hocc.
  injection Hid as -> ->. by subst occ.
Defined.

(** X14. Whatever the two clock readings are, the script prints "Ticket
    generated: 1", pays in cash the hourly fee for the time between the
    readings, which is at least 50, prints the receipt and "Exit
    successful", and ends with the three spots free, the ledger empty and
    the counter at 2; with the readings 100 and 3701 the amount is the
    float 0x1.901c71c71c71dp+5. *)
Theorem main_prints_and_leaves_lot_empty (t_enter t_exit : float) :
  let fee := HourlyPricing.calculate_fee t_enter t_exit in
  main t_enter t_exit =
    ({| objects := [ParkingSpot.init 1 COMPACT; ParkingSpot.init 2 REGULAR;
                    ParkingSpot.init 3 LARGE];
        _instance := Some {| _spots := [0; 1; 2]%nat;
                             _tickets := ∅;
                             _ticket_counter := 2;
                             _pricing_strategy := HourlyPricing.new |} |},
     [Print (TicketGenerated 1); PayCall fee; Print (CashReceived fee);
      Print ExitSuccessful]) /\
  at_least_50 fee /\
  main 100 3701 =
    ({| objects := [ParkingSpot.init 1 COMPACT; ParkingSpot.init 2 REGULAR;
                    ParkingSpot.init 3 LARGE];
        _instance := Some {| _spots := [0; 1; 2]%nat;
                             _tickets := ∅;
                             _ticket_counter := 2;
                             _pricing_strategy := HourlyPricing.new |} |},
     [Print (TicketGenerated 1); PayCall (PyFloat 0x1.901c71c71c71dp+5);
      Print (CashReceived (PyFloat 0x1.901c71c71c71dp+5)); Print ExitSuccessful]).
Proof.
  cbv zeta. split; [vm_compute; reflexivity|].
  split; [apply hourly_fee_at_least | vm_compute; reflexivity].
Qed.

(** ** Classes do not interfere *)

Lemma free_match_alter_other (f : ParkingSpot.t -> ParkingSpot.t)
    (h : list ParkingSpot.t) (want : SpotType) (a b : addr) :
  (forall x, ParkingSpot._type (f x) = ParkingSpot._type x) ->
  (forall o, h !! a = Some o -> ParkingSpot._type o <> want) ->
  free_match (alter f a h) want b = free_match h want b.
Proof.
  intros Hf Hother. unfold free_match. destruct (decide (a = b)) as [<-|Hne].
  - rewrite list_lookup_alter_eq. destruct (h !! a) as [o|] eqn:Ho; simpl; [|done].
    unfold ParkingSpot.get_type. rewrite Hf.
    assert (Hne : ParkingSpot._type o <> want) by (by apply Hother).
    by rewrite (bool_decide_eq_false_2 _ Hne).
  - by rewrite list_lookup_alter_ne.
Qed.

Lemma scan_alter_other (f : ParkingSpot.t -> ParkingSpot.t)
    (h : list ParkingSpot.t) (want : SpotType) (a : addr) (spots : list addr) :
  (forall x, ParkingSpot._type (f x) = ParkingSpot._type x) ->
  (forall o, h !! a = Some o -> ParkingSpot._type o <> want) ->
  scan (alter f a h) want spots = scan h want spots.
Proof.
  intros Hf Hother. induction spots as [|b spots IH]; simpl; [done|].
  by rewrite free_match_alter_other, IH.
Qed.

Lemma mapping_inj (v v' : VehicleType) : mapping v = mapping v' -> v = v'.
Proof. by destruct v, v'. Qed.

(** X15. An arrival never takes a spot away from another class: after
    [park_vehicle] for a vehicle of one class, with or without success,
    [_find_spot] answers for every other vehicle class what it answered
    before. *)
Theorem park_leaves_other_classes (now : float) (vehicle : Vehicle.t) (s : State)
    (other : VehicleType) (Hother : other <> Vehicle.get_type vehicle) :
  _find_spot (state (park_vehicle now vehicle s)) other = _find_spot s other.
Proof.
  unfold park_vehicle.
  destruct (_find_spot s (Vehicle.get_type vehicle)) as [a|] eqn:E; simpl; [|done].
  apply find_spot_valid in E as (o & Ho & Hty & _).
  unfold _find_spot. simpl. apply scan_alter_other; [done|].
  intros o' Ho' Heq. apply Hother.
  apply mapping_inj. rewrite Ho in Ho'. injection Ho' as <-. congruence.
Qed.

Lemma park_leaves_other_classes_witness :
  BIKE <> CAR /\
  _find_spot (state (park_vehicle 0 (Vehicle.init "KA01AB1234" CAR)
                       (get_instance bootstrap))) BIKE = Some 0%nat.
Proof.
  split; [discriminate|].
  rewrite (park_leaves_other_classes 0 (Vehicle.init "KA01AB1234" CAR)
             (get_instance bootstrap) BIKE); [reflexivity | discriminate].
Defined.

(** X16. A departure makes room for its own class only: when the ticket's
    spot has a class other than the one a vehicle class needs,
    [exit_vehicle] on that ticket, paid or not, leaves the answer of
    [_find_spot] for that vehicle class as it was. *)
Theorem exit_leaves_other_classes (now : float) (ticket_id : Z) (p : PaymentStrategy)
    (s : State) (ticket : ParkingTicket.t) (other : VehicleType)
    (Hlive : _tickets (self s) !! ticket_id = Some ticket)
    (Hother : forall o, heap s !! ParkingTicket.get_spot ticket = Some o ->
                        ParkingSpot.get_type o <> mapping other) :
  _find_spot (state (exit_vehicle now ticket_id p s)) other = _find_spot s other.
Proof.
  unfold exit_vehicle. rewrite Hlive.
  destruct (pay p _) as [printed [|]]; simpl; [|done].
  unfold _find_spot. simpl. by apply scan_alter_other.
Qed.

Lemma exit_leaves_other_classes_witness :
  _tickets (self one_car) !! 1 = Some first_ticket /\
  _find_spot (state (exit_vehicle 5400 1 CashPayment.new one_car)) BIKE =
    _find_spot one_car BIKE.
Proof.
  split; [reflexivity|].
  apply (exit_leaves_other_classes 5400 1 CashPayment.new one_car first_ticket BIKE);
    [reflexivity|].
  intros o Ho. vm_compute in Ho. injection Ho as <-. discriminate.
Defined.
